(* Verification of the session orchestration core of server.js
   (mraiko23/aiideapi): credential checks, BrowserSession lifecycle,
   SessionPool rotation and the safeExecute guard. *)

From Stdlib Require Import String Ascii List ZArith Bool Lia.
Import ListNotations.
Set Warnings "-register-all".
Open Scope string_scope.
Open Scope nat_scope.

(* ===================================================================== *)
(* JavaScript values                                                       *)
(* ===================================================================== *)

(** The JavaScript values the core handles.  Numbers are restricted to
    integers and strings to ASCII; objects keep their properties in
    insertion order; functions are not modelled. *)
Inductive jsval : Type :=
| JUndef
| JNull
| JBool (b : bool)
| JNum (z : Z)
| JStr (s : string)
| JArr (l : list jsval)
| JObj (fields : list (string * jsval)).

(** JavaScript truthiness ([if (x)], [x || y], [!x]). *)
Definition truthy (v : jsval) : bool :=
  match v with
  | JUndef | JNull => false
  | JBool b => b
  | JNum z => negb (Z.eqb z 0)
  | JStr s => negb (String.eqb s "")
  | JArr _ | JObj _ => true
  end.

(** [typeof v === 'object'] (true for null, arrays and objects). *)
Definition typeof_object (v : jsval) : bool :=
  match v with
  | JNull | JArr _ | JObj _ => true
  | _ => false
  end.

Definition typeof_string (v : jsval) : bool :=
  match v with JStr _ => true | _ => false end.

(** [a || b]: the first operand when it is truthy, else the second. *)
Definition js_or (a b : jsval) : jsval := if truthy a then a else b.

Fixpoint assoc_get (k : string) (fs : list (string * jsval)) : option jsval :=
  match fs with
  | [] => None
  | (k', v) :: r => if String.eqb k k' then Some v else assoc_get k r
  end.

(** Property access [v.k]; [None] is the TypeError raised on null and
    undefined.  Index properties of arrays are not modelled. *)
Definition js_get (v : jsval) (k : string) : option jsval :=
  match v with
  | JUndef | JNull => None
  | JObj fs => Some (match assoc_get k fs with Some x => x | None => JUndef end)
  | JStr s => Some (if String.eqb k "length" then JNum (Z.of_nat (String.length s)) else JUndef)
  | JArr l => Some (if String.eqb k "length" then JNum (Z.of_nat (List.length l)) else JUndef)
  | JBool _ | JNum _ => Some JUndef
  end.

(** Property access at a site where the receiver is known to be neither
    null nor undefined. *)
Definition js_field (v : jsval) (k : string) : jsval :=
  match js_get v k with Some x => x | None => JUndef end.

(* ===================================================================== *)
(* String helpers                                                          *)
(* ===================================================================== *)

(** [hay.includes(needle)]. *)
Fixpoint includes (needle hay : string) : bool :=
  if String.prefix needle hay then true
  else match hay with
       | EmptyString => false
       | String _ r => includes needle r
       end.

Definition lower_char (c : ascii) : ascii :=
  let n := nat_of_ascii c in
  if (65 <=? n) && (n <=? 90) then ascii_of_nat (n + 32) else c.

(** [s.toLowerCase()] on ASCII text. *)
Fixpoint to_lower (s : string) : string :=
  match s with
  | EmptyString => EmptyString
  | String c r => String (lower_char c) (to_lower r)
  end.

Definition digit_char (n : nat) : ascii := ascii_of_nat (48 + n).

Fixpoint z_digits (fuel : nat) (n : Z) (acc : string) : string :=
  match fuel with
  | O => acc
  | S f =>
      let acc' := String (digit_char (Z.to_nat (n mod 10))) acc in
      if (n <? 10)%Z then acc' else z_digits f (n / 10)%Z acc'
  end.

(** Decimal rendering of an integer (as [String(z)]); a number has no
    more decimal digits than binary ones, so the fuel suffices. *)
Definition z_to_string (z : Z) : string :=
  let n := Z.abs z in
  let d := z_digits (S (Z.to_nat (Z.log2 n))) n EmptyString in
  if (z <? 0)%Z then "-" ++ d else d.

Fixpoint concat_sep (sep : string) (l : list string) : string :=
  match l with
  | [] => ""
  | [x] => x
  | x :: r => x ++ sep ++ concat_sep sep r
  end.

Definition dquote : ascii := "034"%char.
Definition bslash : ascii := "092"%char.

Definition hex_char (n : nat) : ascii :=
  if n <? 10 then ascii_of_nat (48 + n) else ascii_of_nat (87 + n).

(** The JSON escape of one character, as JSON.stringify writes it. *)
Definition json_escape_char (c : ascii) : string :=
  let n := nat_of_ascii c in
  if Ascii.eqb c dquote then String bslash (String dquote EmptyString)
  else if Ascii.eqb c bslash then String bslash (String bslash EmptyString)
  else if n =? 8 then String bslash "b"
  else if n =? 9 then String bslash "t"
  else if n =? 10 then String bslash "n"
  else if n =? 12 then String bslash "f"
  else if n =? 13 then String bslash "r"
  else if n <? 32 then
    String bslash ("u00" ++ String (hex_char (n / 16)) (String (hex_char (n mod 16)) EmptyString))
  else String c EmptyString.

Fixpoint json_escape (s : string) : string :=
  match s with
  | EmptyString => EmptyString
  | String c r => json_escape_char c ++ json_escape r
  end.

Definition json_quote (s : string) : string :=
  String dquote (json_escape s ++ String dquote EmptyString).

(** [JSON.stringify(v)]; [None] is the [undefined] it returns for
    [undefined].  Undefined properties are skipped, undefined array
    elements are written [null]. *)
Fixpoint json_stringify (v : jsval) : option string :=
  match v with
  | JUndef => None
  | JNull => Some "null"
  | JBool true => Some "true"
  | JBool false => Some "false"
  | JNum z => Some (z_to_string z)
  | JStr s => Some (json_quote s)
  | JArr l =>
      let fix elems (l : list jsval) : list string :=
        match l with
        | [] => []
        | x :: r => (match json_stringify x with Some s => s | None => "null" end) :: elems r
        end in
      Some ("[" ++ concat_sep "," (elems l) ++ "]")
  | JObj fs =>
      let fix props (fs : list (string * jsval)) : list string :=
        match fs with
        | [] => []
        | (k, x) :: r =>
            match json_stringify x with
            | Some s => (json_quote k ++ ":" ++ s) :: props r
            | None => props r
            end
        end in
      Some ("{" ++ concat_sep "," (props fs) ++ "}")
  end.

(** The value of a [JSON.stringify(...)] expression. *)
Definition json_stringify_val (v : jsval) : jsval :=
  match json_stringify v with Some s => JStr s | None => JUndef end.

(** [String(v)] / string concatenation of a value. *)
Fixpoint js_to_string (v : jsval) : string :=
  match v with
  | JUndef => "undefined"
  | JNull => "null"
  | JBool true => "true"
  | JBool false => "false"
  | JNum z => z_to_string z
  | JStr s => s
  | JArr l =>
      let fix elems (l : list jsval) : list string :=
        match l with
        | [] => []
        | x :: r =>
            (match x with JUndef | JNull => "" | _ => js_to_string x end) :: elems r
        end in
      concat_sep "," (elems l)
  | JObj _ => "[object Object]"
  end.

(* ===================================================================== *)
(* Credential checks                                                       *)
(* ===================================================================== *)

(** [tok.token || tok.value || tok.auth_token || JSON.stringify(tok)],
    the extraction applied to an object token by updateToken and by
    waitForLogin. *)
Definition probe_token (tok : jsval) : jsval :=
  js_or (js_field tok "token")
    (js_or (js_field tok "value")
       (js_or (js_field tok "auth_token") (json_stringify_val tok))).

(** The credential check of BrowserSession.waitForLogin, applied to
    [state.token] once [state.api && state.token] holds: the accepted
    string, or [None] when the token is ignored. *)
Definition login_token_check (token : jsval) : option string :=
  let tokenStr := if typeof_object token then probe_token token else token in
  match tokenStr with
  | JStr s =>
      if (20 <? String.length s) && negb (String.eqb s "{}") && negb (String.eqb s "null")
      then Some s else None
  | _ => None
  end.

(** The part of SessionPool that updateToken touches: [tokenCache] and
    the tokens handed to [chatStore.saveToken]. *)
Record token_state : Type := mkTokenState {
  tokenCache : option string;
  saved : list string
}.

(** SessionPool.updateToken. *)
Definition updateToken (token : jsval) (st : token_state) : token_state :=
  if negb (truthy token) then st
  else
    let tokenStr := if typeof_object token then probe_token token else token in
    match tokenStr with
    | JStr s =>
        if (String.length s <? 20) || String.eqb s "{}" || String.eqb s "null"
           || String.eqb s "undefined"
        then st
        else if match tokenCache st with Some c => String.eqb c s | None => false end
        then st
        else mkTokenState (Some s) (s :: saved st)
    | _ => st
    end.

(* ===================================================================== *)
(* Number conversion and comparison                                        *)
(* ===================================================================== *)

Fixpoint digits_value (s : string) (acc : Z) : option Z :=
  match s with
  | EmptyString => Some acc
  | String c r =>
      let n := nat_of_ascii c in
      if (48 <=? n) && (n <=? 57)
      then digits_value r (acc * 10 + Z.of_nat (n - 48))%Z
      else None
  end.

(** [Number(s)] on a string: the empty string is 0, a string of decimal
    digits its value, anything else NaN ([None]); surrounding white space
    and non-integer forms are not modelled. *)
Definition str_to_number (s : string) : option Z := digits_value s 0%Z.

(** [Number(v)]; [None] is NaN. *)
Definition js_to_number (v : jsval) : option Z :=
  match v with
  | JUndef => None
  | JNull => Some 0%Z
  | JBool b => Some (if b then 1%Z else 0%Z)
  | JNum z => Some z
  | JStr s => str_to_number s
  | JArr _ | JObj _ => str_to_number (js_to_string v)
  end.

(** [v > n] for a number literal [n]. *)
Definition js_gt (v : jsval) (n : Z) : bool :=
  match js_to_number v with Some z => (n <? z)%Z | None => false end.

(* ===================================================================== *)
(* BrowserSession.getPageStatus                                            *)
(* ===================================================================== *)

(** The page-side state read by the evaluated script: the [puter] global
    ([None] when it is not declared), the localStorage entries, whether
    localStorage.getItem throws, and whether the evaluation itself fails
    (detached frame, closed target). *)
Record page_env : Type := mkPageEnv {
  puter : option jsval;
  localStorage : list (string * string);
  storage_throws : bool;
  evaluate_fails : bool
}.

Definition storageKeys : list string :=
  ["puter.auth.token"; "puter.authToken"; "auth.token"; "authToken"; "token"; "auth_token"].

(** [typeof puter !== 'undefined'] *)
Definition puter_declared (p : option jsval) : bool :=
  match p with None | Some JUndef => false | Some _ => true end.

Definition status_obj (api : bool) (token : jsval) : jsval :=
  JObj [("api", JBool api); ("token", token)].

(** [token && token.length > 20] *)
Definition token_long (token : jsval) : bool :=
  truthy token &&
  match js_get token "length" with Some l => js_gt l 20 | None => false end.

Section PageScript.

(** [JSON.parse]; [None] is the SyntaxError it throws. *)
Variable JSON_parse : string -> option jsval.

(** The first [try] block of the evaluated script, over the value of
    [puter]: [inl] a returned status, [inr] the value of [token] when the
    block is left (normally or through its [catch]). *)
Definition puter_paths (p : jsval) : jsval + jsval :=
  match js_get p "authToken" with
  | None => inr JNull                       (* TypeError, caught *)
  | Some authToken =>
      let token :=
        if truthy authToken then
          if typeof_object authToken then
            js_or (js_field authToken "token")
              (js_or (js_field authToken "value")
                 (js_or (js_field authToken "auth_token") (json_stringify_val authToken)))
          else if typeof_string authToken then authToken
          else JNull
        else JNull in
      if truthy authToken && token_long token
      then inl (status_obj (truthy (js_field p "ai")) token)
      else
        let auth := js_field p "auth" in
        if truthy auth && truthy (js_field auth "token") then
          let authObj := js_field auth "token" in
          let token :=
            if typeof_string authObj then authObj
            else if typeof_object authObj then
              js_or (js_field authObj "token")
                (js_or (js_field authObj "value") (json_stringify_val authObj))
            else token in
          if token_long token
          then inl (status_obj (truthy (js_field p "ai")) token)
          else inr token
        else inr token
  end.

(** [typeof puter !== 'undefined' && !!puter.ai]; [None] is the
    TypeError raised when [puter] is null. *)
Definition api_flag (p : option jsval) : option bool :=
  if puter_declared p then
    match p with
    | Some v => option_map truthy (js_get v "ai")
    | None => Some false
    end
  else Some false.

Fixpoint lookup_item (key : string) (items : list (string * string)) : option string :=
  match items with
  | [] => None
  | (k, v) :: r => if String.eqb key k then Some v else lookup_item key r
  end.

(** One round of the localStorage loop: [Some status] when the script
    returns from it, [None] when it moves on to the next key (including
    through the [catch] around the round). *)
Definition storage_probe (env : page_env) (key : string) : option jsval :=
  if storage_throws env then None
  else
    match lookup_item key (localStorage env) with
    | None => None
    | Some val =>
        if (20 <? String.length val) && negb (String.eqb val "undefined")
           && negb (String.eqb val "null")
        then
          let token :=
            match JSON_parse val with
            | None => JStr val
            | Some parsed =>
                if typeof_object parsed then
                  match parsed with
                  | JNull => JStr val                (* TypeError, caught *)
                  | _ => js_or (js_field parsed "token")
                           (js_or (js_field parsed "value")
                              (js_or (js_field parsed "auth_token") (JStr val)))
                  end
                else JStr val
            end in
          if token_long token then
            match api_flag (puter env) with
            | Some api => Some (status_obj api token)
            | None => None                         (* TypeError, caught *)
            end
          else None
        else None
    end.

Fixpoint storage_loop (env : page_env) (keys : list string) : option jsval :=
  match keys with
  | [] => None
  | k :: r => match storage_probe env k with Some st => Some st | None => storage_loop env r end
  end.

(** The script passed to [page.evaluate]; [None] is an exception thrown
    out of it. *)
Definition page_script (env : page_env) : option jsval :=
  let first :=
    match puter env with
    | Some p => if puter_declared (puter env) then puter_paths p else inr JNull
    | None => inr JNull
    end in
  match first with
  | inl st => Some st
  | inr _ =>
      match storage_loop env storageKeys with
      | Some st => Some st
      | None => option_map (fun api => status_obj api JNull) (api_flag (puter env))
      end
  end.

(** BrowserSession.getPageStatus; [None] is an absent page. *)
Definition getPageStatus (page : option page_env) : jsval :=
  match page with
  | None => status_obj false JNull
  | Some env =>
      if evaluate_fails env then status_obj false JNull
      else match page_script env with
           | Some st => st
           | None => status_obj false JNull
           end
  end.

End PageScript.

(* ===================================================================== *)
(* Errors and results                                                      *)
(* ===================================================================== *)

(** A JavaScript [Error] object: its [name] and [message]. *)
Record jserr : Type := mkErr { ename : string; emsg : string }.

(** [new Error(msg)] *)
Definition Error (msg : string) : jserr := mkErr "Error" msg.

(** [Error.prototype.toString] *)
Definition err_toString (e : jserr) : string :=
  if String.eqb (ename e) "" then emsg e
  else if String.eqb (emsg e) "" then ename e
  else ename e ++ ": " ++ emsg e.

(** The outcome of an awaited call: a value or a thrown error. *)
Inductive Res (A : Type) : Type :=
| Ok (a : A)
| Exc (e : jserr).
Arguments Ok {A} a.
Arguments Exc {A} e.

(* ===================================================================== *)
(* BrowserSession                                                          *)
(* ===================================================================== *)

Inductive sstatus : Type := Initializing | Ready | Dead | Retiring.

Definition sstatus_eqb (a b : sstatus) : bool :=
  match a, b with
  | Initializing, Initializing | Ready, Ready | Dead, Dead | Retiring, Retiring => true
  | _, _ => false
  end.

(** The fields of a BrowserSession the core reads and writes; [browser_open]
    stands for a live [this.browser]. *)
Record session : Type := mkSession {
  sid : nat;
  stype : string;
  browser_open : bool;
  isReady : bool;
  status : sstatus;
  token : option string;
  activeRequests : Z
}.

(** [new BrowserSession(id, type)] *)
Definition newSession (id : nat) (ty : string) : session :=
  mkSession id ty false false Initializing None 0%Z.

Definition set_token (s : session) (t : option string) : session :=
  mkSession (sid s) (stype s) (browser_open s) (isReady s) (status s) t (activeRequests s).
Definition set_ready (s : session) : session :=
  mkSession (sid s) (stype s) (browser_open s) true Ready (token s) (activeRequests s).
Definition set_status (s : session) (st : sstatus) : session :=
  mkSession (sid s) (stype s) (browser_open s) (isReady s) st (token s) (activeRequests s).
Definition set_browser (s : session) (b : bool) : session :=
  mkSession (sid s) (stype s) b (isReady s) (status s) (token s) (activeRequests s).
Definition add_active (s : session) (d : Z) : session :=
  mkSession (sid s) (stype s) (browser_open s) (isReady s) (status s) (token s) (activeRequests s + d).

(** BrowserSession.close: [status = 'dead'], [isReady = false], browser
    closed. *)
Definition close (s : session) : session :=
  mkSession (sid s) (stype s) false false Dead (token s) (activeRequests s).

(** What one poll of the login-wait loop sees: either [injectHelpers]
    throws, or the page (absent or present) is in some state. *)
Inductive poll_obs : Type :=
| PollInjectFails (e : jserr)
| PollPage (page : option page_env).

(** What one attempt of [init] sees: the launch or the navigation throws,
    or the browser comes up and the login-wait loop sees [polls i] at its
    i-th poll. *)
Inductive attempt_obs : Type :=
| LaunchFails (e : jserr)
| Launched (polls : nat -> poll_obs).

Section Lifecycle.
Variable JSON_parse : string -> option jsval.

(** Outcome of the polling loop of waitForLogin. *)
Inductive loop_result : Type :=
| LoopLoggedIn (tok : string)
| LoopExhausted
| LoopThrew (e : jserr).

(** The [for (let i = 0; i < 60; i++)] loop of waitForLogin from poll
    [i] with [n] polls left; the clicking and registration steps inside
    the loop catch their own errors and only act on the page, whose later
    states [polls] already describes. *)
Fixpoint login_loop (n i : nat) (polls : nat -> poll_obs) : loop_result :=
  match n with
  | O => LoopExhausted
  | S n' =>
      match polls i with
      | PollInjectFails e => LoopThrew e
      | PollPage page =>
          let state := getPageStatus JSON_parse page in
          let api := js_field state "api" in
          let tok := js_field state "token" in
          match (if truthy api && truthy tok then login_token_check tok else None) with
          | Some s => LoopLoggedIn s
          | None => login_loop n' (S i) polls
          end
      end
  end.

(** Number of polls the loop performs (each after a 2000 ms wait). *)
Fixpoint login_polls (n i : nat) (polls : nat -> poll_obs) : nat :=
  match n with
  | O => O
  | S n' =>
      match polls i with
      | PollInjectFails _ => 1
      | PollPage page =>
          let state := getPageStatus JSON_parse page in
          let api := js_field state "api" in
          let tok := js_field state "token" in
          match (if truthy api && truthy tok then login_token_check tok else None) with
          | Some _ => 1
          | None => S (login_polls n' (S i) polls)
          end
      end
  end.

(** BrowserSession.waitForLogin, over the session and the tokens handed
    to [chatStore.saveToken]. *)
Definition waitForLogin (polls : nat -> poll_obs) (s : session) (saved : list string)
  : Res unit * session * list string :=
  match login_loop 60 0 polls with
  | LoopLoggedIn t => (Ok tt, set_ready (set_token s (Some t)), t :: saved)
  | LoopExhausted => (Exc (Error "Login Timeout"), s, saved)
  | LoopThrew e => (Exc e, s, saved)
  end.

Definition maxRetries : nat := 3.

(** The [for (let attempt = 1; attempt <= maxRetries; attempt++)] loop of
    BrowserSession.init from [attempt], [n] attempts left. *)
Fixpoint init_loop (n attempt : nat) (attempts : nat -> attempt_obs)
         (s : session) (saved : list string) : Res unit * session * list string :=
  match n with
  | O => (Ok tt, s, saved)
  | S n' =>
      let fail e s saved :=
        let s := set_browser s false in
        if attempt =? maxRetries then (Exc e, set_status s Dead, saved)
        else init_loop n' (S attempt) attempts s saved in
      match attempts attempt with
      | LaunchFails e => fail e s saved
      | Launched polls =>
          match waitForLogin polls (set_browser s true) saved with
          | (Ok tt, s', saved') => (Ok tt, s', saved')
          | (Exc e, s', saved') => fail e s' saved'
          end
      end
  end.

(** BrowserSession.init(existingToken): the argument is not used, every
    attempt logs in afresh. *)
Definition init (existingToken : jsval) (attempts : nat -> attempt_obs)
           (s : session) (saved : list string) : Res unit * session * list string :=
  init_loop maxRetries 1 attempts s saved.

End Lifecycle.

(* ===================================================================== *)
(* SessionPool and safeExecute (server.js)                                 *)
(* ===================================================================== *)

(** Observable steps, newest first in the trace. *)
Inductive event : Type :=
| EInvoke (retryCount id : nat)     (* fn(session) is called *)
| ESleep (ms : nat)                 (* await new Promise(r => setTimeout(r, ms)) *)
| ERotate                           (* rotateOnLimitError is entered *)
| ECreate (id : nat)                (* createSession builds session #id *)
| EClose (id : nat).                (* session #id is closed *)

(** The process state: every BrowserSession object created (sessions
    stay reachable from the calls that hold them after the pool drops
    them), [pool.primary], [pool.sessionCounter], the token cache with the
    persisted tokens, and the trace.  The code runs sequentially here: no
    rotation or initialisation promise is outstanding when a call starts. *)
Record world : Type := mkWorld {
  sessions : list session;
  primary : option nat;
  sessionCounter : nat;
  tok : token_state;
  trace : list event
}.

(** The outside world the pool drives: what attempt [a] of [init] on
    session [id] sees ([init_obs id a]), whether [injectHelpers] throws at
    retry [r] on session [id] ([inject_obs r id]), and what the capability
    call [fn(session)] does there ([fn_obs r id]). *)
Inductive fn_outcome : Type :=
| FnReturn (result : jsval)
| FnThrow (e : jserr).

Record env : Type := mkEnv {
  init_obs : nat -> nat -> attempt_obs;
  inject_obs : nat -> nat -> option jserr;
  fn_obs : nat -> nat -> fn_outcome
}.

Fixpoint find_session (id : nat) (l : list session) : option session :=
  match l with
  | [] => None
  | s :: r => if sid s =? id then Some s else find_session id r
  end.

Fixpoint map_session (id : nat) (f : session -> session) (l : list session) : list session :=
  match l with
  | [] => []
  | s :: r => if sid s =? id then f s :: r else s :: map_session id f r
  end.

Definition set_sessions (w : world) (l : list session) : world :=
  mkWorld l (primary w) (sessionCounter w) (tok w) (trace w).
Definition set_primary_w (w : world) (p : option nat) : world :=
  mkWorld (sessions w) p (sessionCounter w) (tok w) (trace w).
Definition set_counter (w : world) (n : nat) : world :=
  mkWorld (sessions w) (primary w) n (tok w) (trace w).
Definition set_tok (w : world) (t : token_state) : world :=
  mkWorld (sessions w) (primary w) (sessionCounter w) t (trace w).
Definition emit (ev : event) (w : world) : world :=
  mkWorld (sessions w) (primary w) (sessionCounter w) (tok w) (ev :: trace w).

Definition update_session (id : nat) (f : session -> session) (w : world) : world :=
  set_sessions w (map_session id f (sessions w)).

Definition session_ready (w : world) (id : nat) : bool :=
  match find_session id (sessions w) with Some s => isReady s | None => false end.

(** A small state-and-exception monad for the pool's async methods. *)
Definition M (A : Type) : Type := world -> Res A * world.

Definition ret {A} (a : A) : M A := fun w => (Ok a, w).
Definition bind {A B} (m : M A) (k : A -> M B) : M B :=
  fun w => match m w with
           | (Ok a, w') => k a w'
           | (Exc e, w') => (Exc e, w')
           end.
Definition throw {A} (e : jserr) : M A := fun w => (Exc e, w).
Definition try_catch {A} (m : M A) (h : jserr -> M A) : M A :=
  fun w => match m w with
           | (Ok a, w') => (Ok a, w')
           | (Exc e, w') => h e w'
           end.
Definition modify (f : world -> world) : M unit := fun w => (Ok tt, f w).
Definition gets {A} (f : world -> A) : M A := fun w => (Ok (f w), w).

Notation "x <- m ;; k" := (bind m (fun x => k))
  (at level 61, m at next level, right associativity).
Notation "m ;;; k" := (bind m (fun _ => k))
  (at level 61, right associativity).

Definition MAX_RETRIES : nat := 2.

(** [isRecoverableError] of safeExecute, over [e.toString().toLowerCase()]. *)
Definition isRecoverableError (errStr : string) : bool :=
  includes "limit" errStr || includes "quota" errStr || includes "429" errStr
  || includes "rate" errStr || includes "insufficient_funds" errStr
  || includes "usage-limited" errStr || includes "navigat" errStr
  || includes "protocol" errStr || includes "session" errStr
  || includes "target closed" errStr.

(** The check of safeExecute on a returned result: the LIMIT_REACHED
    error it throws, if any. *)
Definition limit_error (result : jsval) : option jserr :=
  let err := js_field result "error" in
  if truthy result && truthy err then
    let errorStr := to_lower (match json_stringify err with Some s => s | None => "" end) in
    if includes "insufficient_funds" errorStr || includes "usage-limited" errorStr
       || includes "limit" errorStr || includes "quota" errorStr
    then Some (Error ("LIMIT_REACHED: "
                      ++ js_to_string (js_or (js_field err "message") (json_stringify_val err))))
    else None
  else None.

(** [session.activeRequests--] followed by the retiring check. *)
Definition release (id : nat) (w : world) : world :=
  update_session id
    (fun s => let s := add_active s (-1) in
              if sstatus_eqb (status s) Retiring && (activeRequests s <=? 0)%Z
              then close s else s) w.

Section Pool.
Variable JSON_parse : string -> option jsval.
Variable E : env.

(** SessionPool.createSession(type). *)
Definition createSession (ty : string) : M nat :=
  fun w =>
    let id := S (sessionCounter w) in
    match init JSON_parse JNull (init_obs E id) (newSession id ty) (saved (tok w)) with
    | (r, s, saved') =>
        let w := emit (ECreate id)
                   (set_tok (set_sessions (set_counter w id) (s :: sessions w))
                      (mkTokenState (tokenCache (tok w)) saved')) in
        match r with
        | Ok _ =>
            let w := match token s with
                     | Some t => set_tok w (updateToken (JStr t) (tok w))
                     | None => w
                     end in
            (Ok id, w)
        | Exc e => (Exc e, w)
        end
    end.

Definition close_session (id : nat) : M unit :=
  modify (update_session id close) ;;; modify (emit (EClose id)).

Definition set_primary (p : option nat) : M unit := modify (fun w => set_primary_w w p).

(** SessionPool.rotateOnLimitError, entered with no rotation in flight. *)
Definition rotateOnLimitError : M unit :=
  modify (emit ERotate) ;;;
  modify (emit (ESleep 3000)) ;;;
  p <- gets primary ;;
  (match p with
   | Some id => close_session id ;;; set_primary None
   | None => ret tt
   end) ;;;
  try_catch (id <- createSession "primary" ;; set_primary (Some id)) (fun _ => ret tt).

(** SessionPool.forceRotate. *)
Definition forceRotate : M nat :=
  old <- gets primary ;;
  (match old with Some id => close_session id | None => ret tt end) ;;;
  id <- createSession "primary" ;;
  set_primary (Some id) ;;;
  ret id.

(** [this.primary && this.primary.isReady] *)
Definition ready_primary (w : world) : option nat :=
  match primary w with
  | Some id => if session_ready w id then Some id else None
  | None => None
  end.

(** SessionPool.getSession. *)
Definition getSession : M nat :=
  p <- gets ready_primary ;;
  match p with
  | Some id => ret id
  | None =>
      forceRotate ;;;
      p' <- gets ready_primary ;;
      match p' with
      | Some id => ret id
      | None => throw (Error "Session unavailable after recovery attempt")
      end
  end.

(** The [catch (e)] block of safeExecute: [session] is the session the
    attempt holds, [retry] the recursive call
    [safeExecute(actionName, fn, retryCount + 1)] when one is left. *)
Definition guard_catch (retry : option (world -> Res jsval * world)) (retryCount : nat)
           (session : option nat) (e : jserr) (w : world) : Res jsval * world :=
  let w := match session with Some id => release id w | None => w end in
  let errStr := to_lower (err_toString e) in
  if isRecoverableError errStr && (retryCount <? MAX_RETRIES) then
    match retry with
    | Some k =>
        let w := emit (ESleep ((retryCount + 1) * 2000)) w in
        let w := snd (rotateOnLimitError w) in
        k w
    | None => (Exc e, w)
    end
  else (Exc e, w).

(** safeExecute(actionName, fn, retryCount), [n] the retries it may still
    make ([MAX_RETRIES - retryCount]). *)
Fixpoint safeExecute_rec (n retryCount : nat) (w : world) {struct n} : Res jsval * world :=
  let retry := match n with
               | S n' => Some (safeExecute_rec n' (S retryCount))
               | O => None
               end in
  let handler := guard_catch retry retryCount in
  match getSession w with
  | (Exc e, w1) => handler None e w1
  | (Ok id, w1) =>
      let w2 := update_session id (fun s => add_active s 1) w1 in
      match inject_obs E retryCount id with
      | Some e => handler (Some id) e w2
      | None =>
          let w3 := emit (EInvoke retryCount id) w2 in
          match fn_obs E retryCount id with
          | FnThrow e => handler (Some id) e w3
          | FnReturn result =>
              let w4 := release id w3 in
              match limit_error result with
              | Some e => handler (Some id) e w4
              | None => (Ok result, w4)
              end
          end
      end
  end.

Definition safeExecute (retryCount : nat) : M jsval :=
  safeExecute_rec (MAX_RETRIES - retryCount) retryCount.

End Pool.

(* ===================================================================== *)
(* rotateOnLimitError under interleaving (server.js)                       *)
(* ===================================================================== *)

(** Where the rotation's async body is suspended: on the 3000 ms timer,
    on [this.primary.close()], or on [this.createSession('primary')] for
    session [id]. *)
Inductive rot_phase : Type :=
| PSleep
| PClose
| PCreate (id : nat).

(** The pool fields the rotation reads and writes, the promise created by
    the rotation in flight ([job]: its promise and phase), and the
    promises already settled with their value.  Promises are numbered. *)
Record rot_state : Type := mkRot {
  r_primary : option nat;
  r_counter : nat;
  isRotating : bool;
  rotationPromise : option nat;
  next_promise : nat;
  job : option (nat * rot_phase);
  settled : list (nat * jsval)
}.

(** What can happen next in the event loop: a caller runs
    [pool.rotateOnLimitError()] up to its first suspension, or the
    suspended rotation resumes (timer fired, close done, createSession
    settled with success or failure). *)
Inductive rot_event : Type :=
| RCall
| RTimer
| RClosed
| RCreated (ok : bool).

(** One event; the second component is the promise a caller gets back. *)
Definition rot_step (st : rot_state) (ev : rot_event) : rot_state * option nat :=
  match ev with
  | RCall =>
      if isRotating st then (st, rotationPromise st)
      else
        let p := next_promise st in
        (mkRot (r_primary st) (r_counter st) true (Some p) (S p) (Some (p, PSleep)) (settled st),
         Some p)
  | RTimer =>
      match job st with
      | Some (p, PSleep) =>
          match r_primary st with
          | Some _ =>
              (mkRot (r_primary st) (r_counter st) (isRotating st) (rotationPromise st)
                     (next_promise st) (Some (p, PClose)) (settled st), None)
          | None =>
              let id := S (r_counter st) in
              (mkRot None id (isRotating st) (rotationPromise st)
                     (next_promise st) (Some (p, PCreate id)) (settled st), None)
          end
      | _ => (st, None)
      end
  | RClosed =>
      match job st with
      | Some (p, PClose) =>
          let id := S (r_counter st) in
          (mkRot None id (isRotating st) (rotationPromise st)
                 (next_promise st) (Some (p, PCreate id)) (settled st), None)
      | _ => (st, None)
      end
  | RCreated ok =>
      match job st with
      | Some (p, PCreate id) =>
          (mkRot (if ok then Some id else r_primary st) (r_counter st) false None
                 (next_promise st) None ((p, JUndef) :: settled st), None)
      | _ => (st, None)
      end
  end.

(** Runs a schedule; returns the final state and, in order, the promise
    each [RCall] got. *)
Fixpoint rot_run (st : rot_state) (evs : list rot_event) : rot_state * list (option nat) :=
  match evs with
  | [] => (st, [])
  | ev :: r =>
      let (st', out) := rot_step st ev in
      let (st'', outs) := rot_run st' r in
      (st'', match ev with RCall => out :: outs | _ => outs end)
  end.

(* ===================================================================== *)
(* hotSwap of the dual-session pool (src/unnamed/part_000)                 *)
(* ===================================================================== *)

(** The dual-session pool: active and standby sessions, the rotation
    flag, the sessions whose [close()] was started and the background
    standby creations started. *)
Record hs_state : Type := mkHs {
  hs_active : option nat;
  hs_standby : option nat;
  hs_rotating : bool;
  hs_closed : list nat;
  hs_spawned : nat
}.

(** SessionPool.hotSwap of part_000.  Its body has no [await] outside the
    [isRotating] branch, so a call runs to its [return] before any other
    caller runs: calls issued together execute one after the other.  The
    [isRotating] branch waits 1000 ms and returns [this.active]. *)
Definition hotSwap (st : hs_state) : Res (option nat) * hs_state :=
  if hs_rotating st then (Ok (hs_active st), st)
  else
    let oldActive := hs_active st in
    let oldStandby := hs_standby st in
    match oldStandby with
    | None =>
        (* this.active.id on null: TypeError, caught, rethrown *)
        (Exc (mkErr "TypeError" "Cannot read properties of null (reading 'id')"),
         mkHs None None false (hs_closed st) (hs_spawned st))
    | Some a =>
        let closed := match oldActive with Some o => o :: hs_closed st | None => hs_closed st end in
        (Ok (Some a), mkHs (Some a) None false closed (S (hs_spawned st)))
    end.

(** [n] calls issued before any of them is awaited. *)
Fixpoint hotSwap_calls (n : nat) (st : hs_state) : list (Res (option nat)) * hs_state :=
  match n with
  | O => ([], st)
  | S n' =>
      let (r, st') := hotSwap st in
      let (rs, st'') := hotSwap_calls n' st' in
      (r :: rs, st'')
  end.

(* ===================================================================== *)
(* PersistentStore (server.js)                                             *)
(* ===================================================================== *)

(** An element of [data.tokens]; [te_updatedAt] is set once the entry has
    been overwritten. *)
Record token_entry : Type := mkTokenEntry {
  te_userId : string;
  te_token : jsval;
  te_createdAt : string;
  te_updatedAt : option string
}.

(** An element of a chat's [messages]. *)
Record message : Type := mkMessage {
  m_role : string;
  m_content : jsval;
  m_timestamp : string
}.

(** An element of [data.chats]. *)
Record chat : Type := mkChat {
  c_id : string;
  c_title : jsval;
  c_model : jsval;
  c_createdAt : string;
  c_messages : list message
}.

(** [this.data] of a PersistentStore, in the shape its methods write. *)
Record store_data : Type := mkStore {
  chats : list chat;
  tokens : list token_entry;
  lastToken : jsval
}.

(** [tokens.find(t => t.userId === userId)] *)
Fixpoint find_token (userId : string) (l : list token_entry) : option token_entry :=
  match l with
  | [] => None
  | t :: r => if String.eqb (te_userId t) userId then Some t else find_token userId r
  end.

(** Writing [token] and [updatedAt] into the entry [find] returned. *)
Fixpoint overwrite_token (userId : string) (token : jsval) (now : string)
         (l : list token_entry) : list token_entry :=
  match l with
  | [] => []
  | t :: r =>
      if String.eqb (te_userId t) userId
      then mkTokenEntry (te_userId t) token (te_createdAt t) (Some now) :: r
      else t :: overwrite_token userId token now r
  end.

(** PersistentStore.saveToken(token, userId); [now] is
    [new Date().toISOString()].  The [save()] it starts is not awaited and
    does not change [data]. *)
Definition saveToken (token : jsval) (userId : string) (now : string) (d : store_data)
  : store_data :=
  if negb (truthy token) then d
  else
    let tokens' :=
      match find_token userId (tokens d) with
      | Some _ => overwrite_token userId token now (tokens d)
      | None => (tokens d ++ [mkTokenEntry userId token now None])%list
      end in
    mkStore (chats d) tokens' token.

(** PersistentStore.getLastToken() *)
Definition getLastToken (d : store_data) : jsval := lastToken d.

(** PersistentStore.getChat(id): [chats.find(c => c.id === id)]. *)
Fixpoint find_chat (id : string) (l : list chat) : option chat :=
  match l with
  | [] => None
  | c :: r => if String.eqb (c_id c) id then Some c else find_chat id r
  end.

Definition getChat (id : string) (d : store_data) : option chat := find_chat id (chats d).

(** PersistentStore.createChat(title, model); [now] is [Date.now()] and
    [iso] is [new Date().toISOString()].  Returns the chat and the new
    data. *)
Definition createChat (title model : jsval) (now : Z) (iso : string) (d : store_data)
  : chat * store_data :=
  let c := mkChat (z_to_string now) (js_or title (JStr "New Chat"))
                  (js_or model (JStr "gemini-2.0-flash")) iso [] in
  (c, mkStore (chats d ++ [c])%list (tokens d) (lastToken d)).

(** [chat.messages.push(m)] on the chat object [getChat] returned: the
    first chat with that id. *)
Fixpoint push_message (id : string) (m : message) (l : list chat) : list chat :=
  match l with
  | [] => []
  | c :: r =>
      if String.eqb (c_id c) id
      then mkChat (c_id c) (c_title c) (c_model c) (c_createdAt c) (c_messages c ++ [m])%list :: r
      else c :: push_message id m r
  end.

(** PersistentStore.addMessage(chatId, role, content); [now] is the
    message's timestamp. *)
Definition addMessage (chatId role : string) (content : jsval) (now : string) (d : store_data)
  : store_data :=
  match getChat chatId d with
  | Some _ => mkStore (push_message chatId (mkMessage role content now) (chats d))
                      (tokens d) (lastToken d)
  | None => d
  end.

(* ===================================================================== *)
(* Response cache (server.js)                                              *)
(* ===================================================================== *)

(** A value of [responseCache]. *)
Record cache_entry : Type := mkCacheEntry { ce_data : jsval; ce_timestamp : Z }.

(** The Map [responseCache], its entries in insertion order. *)
Definition cache : Type := list (string * cache_entry).

Definition CACHE_TTL : Z := (5 * 60 * 1000)%Z.

Fixpoint map_get (k : string) (m : cache) : option cache_entry :=
  match m with
  | [] => None
  | (k', v) :: r => if String.eqb k' k then Some v else map_get k r
  end.

(** [Map.prototype.set]: an existing key keeps its place. *)
Fixpoint map_set (k : string) (v : cache_entry) (m : cache) : cache :=
  match m with
  | [] => [(k, v)]
  | (k', v') :: r => if String.eqb k' k then (k', v) :: r else (k', v') :: map_set k v r
  end.

(** [Map.prototype.delete] *)
Fixpoint map_delete (k : string) (m : cache) : cache :=
  match m with
  | [] => []
  | (k', v') :: r => if String.eqb k' k then r else (k', v') :: map_delete k r
  end.

(** getFromCache(key) at time [now] ([Date.now()]): the returned value
    and the cache afterwards. *)
Definition getFromCache (key : string) (now : Z) (m : cache) : jsval * cache :=
  match map_get key m with
  | Some cached =>
      if (now - ce_timestamp cached <? CACHE_TTL)%Z then (ce_data cached, m)
      else (JNull, map_delete key m)
  | None => (JNull, map_delete key m)
  end.

(** setCache(key, data) at time [now]. *)
Definition setCache (key : string) (data : jsval) (now : Z) (m : cache) : cache :=
  let m := map_set key (mkCacheEntry data now) m in
  if 100 <? length m then
    match m with
    | (oldestKey, _) :: _ => map_delete oldestKey m
    | [] => m
    end
  else m.

(** The invariant of a JavaScript Map with at most 100 entries. *)
Definition cache_wf (m : cache) : Prop := NoDup (map fst m) /\ length m <= 100.

(* ===================================================================== *)
(* Dual-session getSession (src/unnamed/part_000)                          *)
(* ===================================================================== *)

(** SessionPool.getSession of part_000 once no initialization is pending;
    [rdy id] is [isReady] of session [id]. *)
Definition hs_getSession (rdy : nat -> bool) (st : hs_state) : Res (option nat) * hs_state :=
  let activeReady := match hs_active st with Some a => rdy a | None => false end in
  if activeReady then (Ok (hs_active st), st)
  else
    match hs_standby st with
    | Some b =>
        if rdy b then
          match hotSwap st with
          | (Ok _, st') => (Ok (hs_active st'), st')
          | (Exc e, st') => (Exc e, st')
          end
        else (Exc (Error "No sessions available"), st)
    | None => (Exc (Error "No sessions available"), st)
    end.

(* ===================================================================== *)
(* POST /api/chat, non-streaming mode (server.js)                          *)
(* ===================================================================== *)













(* ===================================================================== *)
(* Vocabulary of the properties                                            *)
(* ===================================================================== *)

(** The limit/quota signals safeExecute looks for in an embedded error. *)
Definition limit_signals : list string :=
  ["insufficient_funds"; "usage-limited"; "limit"; "quota"].

(** Every signal isRecoverableError looks for. *)
Definition recoverable_signals : list string :=
  ["limit"; "quota"; "insufficient_funds"; "usage-limited";
   "429"; "rate"; "navigat"; "protocol"; "target closed"; "session"].

(** An invocation of the guarded capability [fn(session)]. *)
Definition is_invoke (ev : event) : bool :=
  match ev with EInvoke _ _ => true | _ => false end.

Definition invokes (l : list event) : nat := length (filter is_invoke l).

(** [w'] extends the trace of [w] with events containing at most [m]
    invocations. *)
Definition adds_invokes (m : nat) (w w' : world) : Prop :=
  exists l, trace w' = (l ++ trace w)%list /\ invokes l <= m.

(** [id0] is not the primary and no later session can reuse its id. *)
Definition retired (id0 : nat) (w : world) : Prop :=
  id0 <= sessionCounter w /\ primary w <> Some id0.

(** A schedule in which no session creation settles. *)
Definition no_created (evs : list rot_event) : bool :=
  forallb (fun ev => match ev with RCreated _ => false | _ => true end) evs.

(** The state of a rotation started from [st0] that is still in flight,
    its session creation not settled. *)
Definition rot_inflight (st0 st : rot_state) : Prop :=
  let p := next_promise st0 in
  isRotating st = true /\ rotationPromise st = Some p /\ next_promise st = S p
  /\ settled st = settled st0
  /\ ((job st = Some (p, PSleep) /\ r_counter st = r_counter st0)
      \/ (job st = Some (p, PClose) /\ r_counter st = r_counter st0)
      \/ (job st = Some (p, PCreate (S (r_counter st0)))
          /\ r_counter st = S (r_counter st0) /\ r_primary st = None)).

(* ===================================================================== *)
(* Concrete inputs                                                         *)
(* ===================================================================== *)

(** A JSON.parse that rejects everything; the inputs below never reach it. *)
Definition no_parse (_ : string) : option jsval := None.

Definition tok32 : string := "abcdefghijklmnopqrstuvwxyz012345".
Definition tok20 : string := "abcdefghijklmnopqrst".

(** A logged-in page: [puter.authToken] holds a 32-character token. *)
Definition good_page : page_env :=
  mkPageEnv (Some (JObj [("authToken", JStr tok32); ("ai", JObj [])])) [] false false.

(** A page where the platform script has not loaded. *)
Definition blank_page : page_env := mkPageEnv None [] false false.

(** A page whose [puter.authToken] is an object whose [token] field is an
    array of 21 numbers. *)
Definition arr_token : jsval := JArr (repeat (JNum 1) 21).
Definition arr_page : page_env :=
  mkPageEnv (Some (JObj [("authToken", JObj [("token", arr_token)]); ("ai", JObj [])]))
            [] false false.

(** Logins always succeed; the capability answers with an embedded quota
    error. *)
Definition quota_env : env :=
  mkEnv (fun _ _ => Launched (fun _ => PollPage (Some good_page)))
        (fun _ _ => None)
        (fun _ _ => FnReturn (JObj [("error", JStr "Quota exceeded")])).

(** Logins never see a credential; the capability succeeds. *)
Definition timeout_env : env :=
  mkEnv (fun _ _ => Launched (fun _ => PollPage (Some blank_page)))
        (fun _ _ => None)
        (fun _ _ => FnReturn (JStr "ok")).

(** Logins always succeed; the capability always throws a navigation
    error. *)
Definition nav_error : jserr := Error "Navigation failed because browser has disconnected!".
Definition nav_env : env :=
  mkEnv (fun _ _ => Launched (fun _ => PollPage (Some good_page)))
        (fun _ _ => None)
        (fun _ _ => FnThrow nav_error).

(** Session #1 ready as primary. *)
Definition s_ready : session := set_ready (set_token (set_browser (newSession 1 "primary") true) (Some tok32)).
Definition w_ready : world := mkWorld [s_ready] (Some 1) 1 (mkTokenState (Some tok32) [tok32]) [].

(** A pool whose primary is session #1 with no rotation in flight, and a
    schedule in which two more calls arrive while the rotation waits on
    its timer and on the close of the old primary. *)
Definition rot_idle : rot_state := mkRot (Some 1) 1 false None 0 None [].
Definition rot_sched : list rot_event := [RTimer; RCall; RClosed; RCall].

(** A pool with no session. *)
Definition w_down : world := mkWorld [] None 0 (mkTokenState None []) [].

(** A response cache with one entry written at time 0. *)
Definition one_cache : cache := [("chat:hi", mkCacheEntry (JStr "hello") 0%Z)].

(** A dual-session pool whose active session #1 is down while its standby
    #2 is ready. *)
Definition hs_down_active : hs_state := mkHs (Some 1) (Some 2) false [] 0.
Definition only2_ready (i : nat) : bool := i =? 2.



(* ===================================================================== *)
(* Theorems                                                                *)
(* ===================================================================== *)

(** C1 (code_bug): one guarded call whose result embeds a quota error
    leaves the session it ran on with [activeRequests = -1]: the count is
    decremented after [fn] returns and again in the [catch] block that
    handles the LIMIT_REACHED error thrown right after. *)
Lemma safeExecute_limit_result_refcount_negative :
  option_map activeRequests
    (find_session 1 (sessions (snd (safeExecute no_parse quota_env 0 w_ready))))
  = Some (-1)%Z.
Proof. vm_compute. reflexivity. Qed.

(** C2 (code_bug): updateToken accepts and caches a 20-character token,
    which the login-wait check rejects ([length > 20]). *)
Lemma updateToken_accepts_20_char_token :
  String.length tok20 = 20
  /\ tokenCache (updateToken (JStr tok20) (mkTokenState None [])) = Some tok20
  /\ login_token_check (JStr tok20) = None.
Proof. vm_compute. repeat split. Qed.

(** C10 (counterexample): when [puter.authToken.token] is an array of 21
    elements, getPageStatus returns that array as [token]: neither null
    nor a string. *)
Lemma getPageStatus_array_token :
  getPageStatus no_parse (Some arr_page) = status_obj true arr_token
  /\ ~ (exists api t, getPageStatus no_parse (Some arr_page) = status_obj api t
                      /\ (t = JNull \/ exists s, t = JStr s)).
Proof.
  split.
  - vm_compute. reflexivity.
  - intros (api & t & Heq & Ht). vm_compute in Heq.
    injection Heq as _ <-. destruct Ht as [H | (s & H)]; discriminate H.
Qed.

(** C7 (counterexample): with no ready primary and a recovery whose
    logins time out, getSession raises the init error ["Login Timeout"],
    not a pool-unavailable error. *)
Lemma getSession_recovery_failure_propagates :
  ready_primary w_down = None
  /\ fst (getSession no_parse timeout_env w_down) = Exc (Error "Login Timeout").
Proof. split; vm_compute; reflexivity. Qed.

(** C6 (code_bug): hotSwap of part_000 does not coalesce concurrent
    calls.  Its [isRotating] guard is set and cleared with no [await] in
    between, so two calls issued together on any pool with an active
    session [a] and a standby [b] and no swap in progress perform two
    swaps: the first makes [b] active, the second finds no standby,
    replaces the active session by null and rejects with a TypeError.
    The two calls do not resolve to the same session, and the pool ends
    with no active session. *)
Lemma hotSwap_two_calls_two_swaps a b cl sp :
  hotSwap_calls 2 (mkHs (Some a) (Some b) false cl sp)
  = ([Ok (Some b); Exc (mkErr "TypeError" "Cannot read properties of null (reading 'id')")],
     mkHs None None false (a :: cl) (S sp)).
Proof. reflexivity. Qed.

(* --- lifecycle lemmas --- *)

Lemma waitForLogin_session_indep JSON_parse polls s sv1 sv2 :
  snd (fst (waitForLogin JSON_parse polls s sv1)) = snd (fst (waitForLogin JSON_parse polls s sv2))
  /\ fst (fst (waitForLogin JSON_parse polls s sv1)) = fst (fst (waitForLogin JSON_parse polls s sv2)).
Proof. unfold waitForLogin. destruct (login_loop _ _ _ _); auto. Qed.

Lemma init_loop_session_indep JSON_parse n a obs s sv1 sv2 :
  snd (fst (init_loop JSON_parse n a obs s sv1)) = snd (fst (init_loop JSON_parse n a obs s sv2)).
Proof.
  revert a s sv1 sv2. induction n as [|n IH]; intros a s sv1 sv2; simpl; [reflexivity|].
  destruct (obs a) as [e|polls].
  - destruct (a =? maxRetries); simpl; auto.
  - destruct (waitForLogin_session_indep JSON_parse polls (set_browser s true) sv1 sv2) as [Hs Hr].
    destruct (waitForLogin JSON_parse polls (set_browser s true) sv1) as [[r1 s1] v1] eqn:E1.
    destruct (waitForLogin JSON_parse polls (set_browser s true) sv2) as [[r2 s2] v2] eqn:E2.
    simpl in Hs, Hr. subst s2 r2.
    destruct r1 as [[]|e]; [reflexivity|].
    destruct (a =? maxRetries); simpl; auto.
Qed.

Lemma init_loop_sid JSON_parse n a obs s sv :
  sid (snd (fst (init_loop JSON_parse n a obs s sv))) = sid s.
Proof.
  revert a s sv. induction n as [|n IH]; intros a s sv; simpl; [reflexivity|].
  destruct (obs a) as [e|polls].
  - destruct (a =? maxRetries); simpl; [reflexivity|]. rewrite IH. reflexivity.
  - unfold waitForLogin. destruct (login_loop _ _ _ _); simpl; try reflexivity;
      destruct (a =? maxRetries); simpl; try reflexivity; rewrite IH; reflexivity.
Qed.

(** A token held after [init] was either held before or accepted by the
    login-wait loop of one of the attempts. *)
Lemma init_loop_token_origin JSON_parse n a obs s sv t :
  token (snd (fst (init_loop JSON_parse n a obs s sv))) = Some t ->
  token s = Some t \/
  exists a' polls, obs a' = Launched polls /\ login_loop JSON_parse 60 0 polls = LoopLoggedIn t.
Proof.
  revert a s sv. induction n as [|n IH]; intros a s sv; simpl; [auto|].
  destruct (obs a) as [e|polls] eqn:Ha.
  - destruct (a =? maxRetries); simpl; [auto|].
    intros H. apply IH in H. exact H.
  - unfold waitForLogin. destruct (login_loop JSON_parse 60 0 polls) as [t'| |e] eqn:Hl; simpl.
    + intros H. injection H as <-. right. exists a, polls. auto.
    + destruct (a =? maxRetries); simpl; [auto|]. intros H. apply IH in H. exact H.
    + destruct (a =? maxRetries); simpl; [auto|]. intros H. apply IH in H. exact H.
Qed.

Lemma login_loop_exhausted_polls JSON_parse n i polls :
  login_loop JSON_parse n i polls = LoopExhausted -> login_polls JSON_parse n i polls = n.
Proof.
  revert i. induction n as [|n IH]; intros i; simpl; [reflexivity|].
  destruct (polls i) as [e|page]; [discriminate|].
  match goal with |- context [match ?x with Some _ => _ | None => _ end] => destruct x end;
    [discriminate|].
  intros H. rewrite (IH _ H). reflexivity.
Qed.

(** While every remaining attempt runs out the login-wait bound, [init]
    ends with the Login Timeout error and status dead. *)
Lemma init_loop_timeout JSON_parse n a obs s sv :
  1 <= n -> a + n = S maxRetries ->
  (forall a', a <= a' <= maxRetries ->
     exists polls, obs a' = Launched polls /\ login_loop JSON_parse 60 0 polls = LoopExhausted) ->
  let '(r, s', _) := init_loop JSON_parse n a obs s sv in
  r = Exc (Error "Login Timeout") /\ status s' = Dead /\ isReady s' = isReady s
  /\ token s' = token s.
Proof.
  revert a s sv. induction n as [|n IH]; intros a s sv Hn Ha Hall; [lia|].
  destruct (Hall a) as (polls & Hobs & Hl); [unfold maxRetries in *; lia|].
  simpl. rewrite Hobs. unfold waitForLogin at 1. rewrite Hl.
  destruct (a =? maxRetries) eqn:Hlast.
  - simpl. auto.
  - apply Nat.eqb_neq in Hlast.
    assert (Hn' : 1 <= n) by (unfold maxRetries in *; lia).
    specialize (IH (S a) (set_browser (set_browser s true) false) sv Hn').
    destruct (init_loop JSON_parse n (S a) obs (set_browser (set_browser s true) false) sv)
      as [[r s'] v].
    destruct IH as (Hr & Hst & Hrd & Htk); [lia| |].
    + intros a' Ha'. apply Hall. lia.
    + simpl in *. auto.
Qed.

(** C8: every session the pool creates starts with no token, is
    initialised with [null] in place of a persisted credential, and ends up
    exactly as [init] leaves it whatever token is injected and whatever
    tokens were persisted before; any token it holds was accepted by its
    own login-wait loop. *)
Theorem createSession_fresh_login JSON_parse E ty w existing saved0 :
  let id := S (sessionCounter w) in
  let s := snd (fst (init JSON_parse existing (init_obs E id) (newSession id ty) saved0)) in
  token (newSession id ty) = None
  /\ find_session id (sessions (snd (createSession JSON_parse E ty w))) = Some s
  /\ (forall t, token s = Some t ->
        exists a polls, init_obs E id a = Launched polls
                        /\ login_loop JSON_parse 60 0 polls = LoopLoggedIn t).
Proof.
  intros id s. split; [reflexivity|]. split.
  - unfold createSession. fold id.
    pose proof (init_loop_session_indep JSON_parse maxRetries 1 (init_obs E id)
                  (newSession id ty) (saved (tok w)) saved0) as Hind.
    pose proof (init_loop_sid JSON_parse maxRetries 1 (init_obs E id)
                  (newSession id ty) (saved (tok w))) as Hsid.
    unfold init in *.
    destruct (init_loop JSON_parse maxRetries 1 (init_obs E id) (newSession id ty) (saved (tok w)))
      as [[r s'] v] eqn:Hi.
    cbn [fst snd] in Hind, Hsid.
    unfold s. rewrite <- Hind.
    assert (Hf : find_session id (s' :: sessions w) = Some s')
      by (simpl; rewrite Hsid, Nat.eqb_refl; reflexivity).
    destruct r as [[]|e]; [destruct (token s')|]; exact Hf.
  - intros t Ht. unfold s, init in Ht.
    apply init_loop_token_origin in Ht. destruct Ht as [Ht|Ht]; [discriminate|exact Ht].
Qed.

(** C9: when every one of the [maxRetries] = 3 attempts of [init] runs its
    login-wait loop through all 60 polls (2000 ms apart) without a valid
    credential, [init] raises the Login Timeout error and the session ends
    dead, not ready, with no token. *)
Theorem init_login_timeout_dead JSON_parse existing obs id ty saved
  (Htimeout : forall a, 1 <= a <= maxRetries ->
     exists polls, obs a = Launched polls /\ login_loop JSON_parse 60 0 polls = LoopExhausted) :
  let '(r, s, _) := init JSON_parse existing obs (newSession id ty) saved in
  r = Exc (Error "Login Timeout") /\ status s = Dead /\ isReady s = false /\ token s = None
  /\ (forall a polls, 1 <= a <= maxRetries -> obs a = Launched polls ->
        login_polls JSON_parse 60 0 polls = 60).
Proof.
  pose proof (init_loop_timeout JSON_parse maxRetries 1 obs (newSession id ty) saved) as H.
  unfold init. destruct (init_loop JSON_parse maxRetries 1 obs (newSession id ty) saved)
    as [[r s] v].
  destruct H as (Hr & Hst & Hrd & Htk); [unfold maxRetries; lia|reflexivity|exact Htimeout|].
  repeat split; auto.
  intros a polls Ha Hobs. destruct (Htimeout a Ha) as (polls' & Hobs' & Hl).
  rewrite Hobs in Hobs'. injection Hobs' as <-.
  apply login_loop_exhausted_polls. exact Hl.
Qed.

(** Witness for C9: a page on which the platform script never loads. *)
Lemma init_login_timeout_dead_witness :
  (forall a, 1 <= a <= maxRetries ->
     exists polls, (fun _ : nat => Launched (fun _ => PollPage (Some blank_page))) a = Launched polls
                   /\ login_loop no_parse 60 0 polls = LoopExhausted)
  /\ let '(r, s, _) := init no_parse JNull (fun _ => Launched (fun _ => PollPage (Some blank_page)))
                          (newSession 1 "primary") [] in
     r = Exc (Error "Login Timeout") /\ status s = Dead /\ isReady s = false /\ token s = None
     /\ (forall a polls, 1 <= a <= maxRetries ->
           (fun _ : nat => Launched (fun _ => PollPage (Some blank_page))) a = Launched polls ->
           login_polls no_parse 60 0 polls = 60).
Proof.
  assert (H : forall a, 1 <= a <= maxRetries ->
     exists polls, (fun _ : nat => Launched (fun _ => PollPage (Some blank_page))) a = Launched polls
                   /\ login_loop no_parse 60 0 polls = LoopExhausted).
  { intros a _. eexists. split; [reflexivity|]. vm_compute. reflexivity. }
  split; [exact H|].
  exact (init_login_timeout_dead no_parse JNull _ 1 "primary" [] H).
Defined.

(* --- getPageStatus lemmas --- *)

Lemma puter_paths_shape p st :
  puter_paths p = inl st -> exists api t, st = status_obj api t /\ token_long t = true.
Proof.
  unfold puter_paths. destruct (js_get p "authToken") as [a|]; [|discriminate].
  cbv zeta.
  match goal with |- context [if truthy a && token_long ?t then _ else _] =>
    destruct (truthy a && token_long t) eqn:H1 end.
  - intros H. injection H as <-. apply andb_prop in H1. eexists _, _. split; [reflexivity|apply H1].
  - match goal with |- context [if ?b then _ else inr _] => destruct b end; [|discriminate].
    match goal with |- context [if token_long ?t then _ else _] =>
      destruct (token_long t) eqn:H2 end; [|discriminate].
    intros H. injection H as <-. eexists _, _. split; [reflexivity|exact H2].
Qed.

Lemma storage_probe_shape JSON_parse env k st :
  storage_probe JSON_parse env k = Some st -> exists api t, st = status_obj api t /\ token_long t = true.
Proof.
  unfold storage_probe. destruct (storage_throws env); [discriminate|].
  destruct (lookup_item k (localStorage env)) as [val|]; [|discriminate].
  match goal with |- context [if ?b then _ else None] => destruct b end; [|discriminate].
  cbv zeta.
  match goal with |- context [if token_long ?t then _ else _] =>
    destruct (token_long t) eqn:H2 end; [|discriminate].
  destruct (api_flag (puter env)); [|discriminate].
  intros H. injection H as <-. eexists _, _. split; [reflexivity|exact H2].
Qed.

Lemma storage_loop_shape JSON_parse env keys st :
  storage_loop JSON_parse env keys = Some st -> exists api t, st = status_obj api t /\ token_long t = true.
Proof.
  induction keys as [|k r IH]; simpl; [discriminate|].
  destruct (storage_probe JSON_parse env k) eqn:Hp.
  - intros H. injection H as <-. eapply storage_probe_shape. exact Hp.
  - exact IH.
Qed.

Lemma page_script_shape JSON_parse env st :
  page_script JSON_parse env = Some st ->
  exists api t, st = status_obj api t /\ (t = JNull \/ token_long t = true).
Proof.
  unfold page_script.
  destruct (match puter env with
            | Some p => if puter_declared (puter env) then puter_paths p else inr JNull
            | None => inr JNull end) as [st'|x] eqn:Hf.
  - intros H. injection H as <-.
    destruct (puter env) as [p|]; [|discriminate].
    destruct (puter_declared (Some p)); [|discriminate].
    destruct (puter_paths_shape p st' Hf) as (api & t & -> & Ht). eauto.
  - destruct (storage_loop JSON_parse env storageKeys) as [st'|] eqn:Hs.
    + intros H. injection H as <-.
      destruct (storage_loop_shape JSON_parse env storageKeys st' Hs) as (api & t & -> & Ht). eauto.
    + destruct (api_flag (puter env)) as [api|]; simpl; [|discriminate].
      intros H. injection H as <-. eauto.
Qed.

(** C10: getPageStatus never throws: it returns [{api, token}] with a
    boolean [api] and a [token] that is null or a truthy value whose
    [length] exceeds 20 (a string, but also an array or object taken from
    a [token]/[value]/[auth_token] field); with no page, a failed
    evaluation or an exception inside the script it returns
    [{api: false, token: null}]. *)
Theorem getPageStatus_shape JSON_parse page :
  (exists api t, getPageStatus JSON_parse page = status_obj api t
                 /\ (t = JNull \/ token_long t = true))
  /\ getPageStatus JSON_parse None = status_obj false JNull
  /\ (forall env, evaluate_fails env = true \/ page_script JSON_parse env = None ->
        getPageStatus JSON_parse (Some env) = status_obj false JNull).
Proof.
  split; [|split].
  - destruct page as [env|]; simpl; [|eauto].
    destruct (evaluate_fails env); [eauto|].
    destruct (page_script JSON_parse env) as [st|] eqn:Hs; [|eauto].
    exact (page_script_shape JSON_parse env st Hs).
  - reflexivity.
  - intros env [H|H]; simpl; rewrite H; [reflexivity|].
    destruct (evaluate_fails env); reflexivity.
Qed.

(* --- pool lemmas --- *)

Lemma init_loop_ok_ready JSON_parse n a obs s sv :
  1 <= n -> a + n = S maxRetries ->
  fst (fst (init_loop JSON_parse n a obs s sv)) = Ok tt ->
  isReady (snd (fst (init_loop JSON_parse n a obs s sv))) = true.
Proof.
  revert a s sv. induction n as [|n IH]; intros a s sv Hn Ha; [lia|].
  simpl. destruct (obs a) as [e|polls].
  - destruct (a =? maxRetries) eqn:Hlast; [discriminate|].
    apply Nat.eqb_neq in Hlast. apply IH; unfold maxRetries in *; lia.
  - unfold waitForLogin. destruct (login_loop JSON_parse 60 0 polls) as [t| |e].
    + reflexivity.
    + destruct (a =? maxRetries) eqn:Hlast; [discriminate|].
      apply Nat.eqb_neq in Hlast. apply IH; unfold maxRetries in *; lia.
    + destruct (a =? maxRetries) eqn:Hlast; [discriminate|].
      apply Nat.eqb_neq in Hlast. apply IH; unfold maxRetries in *; lia.
Qed.

(** createSession leaves [primary] alone, bumps the counter, and on
    success returns the new id of a session that is ready. *)
Lemma createSession_spec JSON_parse E ty w :
  primary (snd (createSession JSON_parse E ty w)) = primary w
  /\ sessionCounter (snd (createSession JSON_parse E ty w)) = S (sessionCounter w)
  /\ (forall id, fst (createSession JSON_parse E ty w) = Ok id ->
        id = S (sessionCounter w)
        /\ session_ready (snd (createSession JSON_parse E ty w)) id = true).
Proof.
  unfold createSession.
  pose proof (init_loop_ok_ready JSON_parse maxRetries 1 (init_obs E (S (sessionCounter w)))
                (newSession (S (sessionCounter w)) ty) (saved (tok w))) as Hrd.
  pose proof (init_loop_sid JSON_parse maxRetries 1 (init_obs E (S (sessionCounter w)))
                (newSession (S (sessionCounter w)) ty) (saved (tok w))) as Hsid.
  unfold init.
  destruct (init_loop JSON_parse maxRetries 1 (init_obs E (S (sessionCounter w)))
              (newSession (S (sessionCounter w)) ty) (saved (tok w))) as [[r s] v].
  cbn [fst snd] in Hrd, Hsid.
  destruct r as [[]|e].
  - assert (Hs : session_ready (emit (ECreate (S (sessionCounter w)))
                   (set_tok (set_sessions (set_counter w (S (sessionCounter w))) (s :: sessions w))
                      {| tokenCache := tokenCache (tok w); saved := v |})) (S (sessionCounter w)) = true).
    { unfold session_ready. simpl. rewrite Hsid. simpl. rewrite Nat.eqb_refl.
      apply Hrd; [unfold maxRetries; lia|reflexivity|reflexivity]. }
    destruct (token s); simpl; (split; [reflexivity|split; [reflexivity|]]);
      intros i H; injection H as <-; auto.
  - simpl. split; [reflexivity|split; [reflexivity|]]. intros i H. discriminate H.
Qed.

Lemma getSession_ready JSON_parse E w id :
  ready_primary w = Some id -> getSession JSON_parse E w = (Ok id, w).
Proof. intros H. unfold getSession, bind, gets. rewrite H. reflexivity. Qed.

Lemma close_session_fields id w :
  primary (snd (close_session id w)) = primary w
  /\ sessionCounter (snd (close_session id w)) = sessionCounter w.
Proof. split; reflexivity. Qed.

Lemma forceRotate_retired JSON_parse E id0 w :
  retired id0 w -> retired id0 (snd (forceRotate JSON_parse E w)).
Proof.
  intros [Hc Hp]. unfold forceRotate, bind, gets.
  set (w1 := snd ((match primary w with Some id => close_session id | None => ret tt end) w)).
  assert (Hw1 : primary w1 = primary w /\ sessionCounter w1 = sessionCounter w)
    by (unfold w1; destruct (primary w) eqn:Hpw;
        [rewrite <- Hpw; apply close_session_fields|split; [exact Hpw|reflexivity]]).
  replace ((match primary w with Some id => close_session id | None => ret tt end) w)
    with (Ok tt, w1)
    by (unfold w1; destruct (primary w); reflexivity).
  destruct Hw1 as [Hw1p Hw1c].
  destruct (createSession_spec JSON_parse E "primary" w1) as (Hp2 & Hc2 & Hok).
  destruct (createSession JSON_parse E "primary" w1) as [[id|e] w2]; simpl in *.
  - destruct (Hok id eq_refl) as [-> _]. split; simpl; [lia|].
    intros H. injection H. lia.
  - split; [lia|]. congruence.
Qed.

Lemma getSession_retired JSON_parse E id0 w :
  retired id0 w -> retired id0 (snd (getSession JSON_parse E w)).
Proof.
  intros H. unfold getSession, bind, gets at 1.
  destruct (ready_primary w) as [id|]; [exact H|].
  pose proof (forceRotate_retired JSON_parse E id0 w H) as H'.
  destruct (forceRotate JSON_parse E w) as [[id|e] w']; simpl in *; [|exact H'].
  unfold gets. destruct (ready_primary w'); exact H'.
Qed.

(** rotateOnLimitError written out as plain state passing. *)
Lemma rotate_unfold JSON_parse E w :
  rotateOnLimitError JSON_parse E w =
  let w0 := emit (ESleep 3000) (emit ERotate w) in
  let w1 := match primary w with
            | Some id => set_primary_w (emit (EClose id) (update_session id close w0)) None
            | None => w0
            end in
  match createSession JSON_parse E "primary" w1 with
  | (Ok id, w2) => (Ok tt, set_primary_w w2 (Some id))
  | (Exc _, w2) => (Ok tt, w2)
  end.
Proof.
  unfold rotateOnLimitError, close_session, set_primary.
  unfold bind, modify, gets, try_catch, ret. cbn beta iota.
  change (primary (emit (ESleep 3000) (emit ERotate w))) with (primary w).
  destruct (primary w);
  destruct (createSession JSON_parse E "primary" _) as [[id|e] w2]; reflexivity.
Qed.

(** After rotateOnLimitError no session up to the counter it started
    from is primary. *)
Lemma rotate_retired JSON_parse E id0 w :
  id0 <= sessionCounter w -> retired id0 (snd (rotateOnLimitError JSON_parse E w)).
Proof.
  intros Hc. rewrite rotate_unfold. cbv zeta.
  match goal with |- context [createSession JSON_parse E "primary" ?x] => set (w1 := x) end.
  assert (Hw1p : primary w1 = None)
    by (unfold w1; destruct (primary w) eqn:Hp; [reflexivity | exact Hp]).
  assert (Hw1c : sessionCounter w1 = sessionCounter w) by (unfold w1; destruct (primary w); reflexivity).
  destruct (createSession_spec JSON_parse E "primary" w1) as (Hp2 & Hc2 & Hok).
  destruct (createSession JSON_parse E "primary" w1) as [[id|e] w2]; simpl in *.
  - destruct (Hok id eq_refl) as [-> _]. split; simpl; [lia|].
    intros H. injection H. lia.
  - split; [lia|]. rewrite Hp2, Hw1p. discriminate.
Qed.

Lemma release_fields id w :
  primary (release id w) = primary w /\ sessionCounter (release id w) = sessionCounter w.
Proof. split; reflexivity. Qed.

Lemma guard_catch_retired JSON_parse E retry r sess e id0 w :
  (forall k, retry = Some k -> forall w', retired id0 w' -> retired id0 (snd (k w'))) ->
  retired id0 w -> retired id0 (snd (guard_catch JSON_parse E retry r sess e w)).
Proof.
  intros Hk Hw. unfold guard_catch.
  set (w1 := match sess with Some id => release id w | None => w end).
  assert (Hw1 : retired id0 w1) by (unfold w1; destruct sess; exact Hw).
  destruct (_ && _); [|exact Hw1].
  destruct retry as [k|]; [|exact Hw1].
  apply (Hk k eq_refl). apply rotate_retired. destruct Hw1 as [Hc _]. exact Hc.
Qed.

Lemma safeExecute_rec_retired JSON_parse E n r id0 w :
  retired id0 w -> retired id0 (snd (safeExecute_rec JSON_parse E n r w)).
Proof.
  revert r w. induction n as [|n IH]; intros r w Hw; simpl;
  (pose proof (getSession_retired JSON_parse E id0 w Hw) as Hg;
   destruct (getSession JSON_parse E w) as [[id|e] w1]; simpl in Hg;
   [ | apply guard_catch_retired; [intros k Hk; try discriminate; injection Hk as <-; apply IH | exact Hg]]);
  (destruct (inject_obs E r id) as [e|];
   [ apply guard_catch_retired; [intros k Hk; try discriminate; injection Hk as <-; apply IH | exact Hg]
   | destruct (fn_obs E r id) as [result|e];
     [ destruct (limit_error result) as [e|];
       [ apply guard_catch_retired; [intros k Hk; try discriminate; injection Hk as <-; apply IH | exact Hg]
       | exact Hg ]
     | apply guard_catch_retired; [intros k Hk; try discriminate; injection Hk as <-; apply IH | exact Hg]]]).
Qed.

(* --------------------------------------------------------------------- *)
(* Substrings                                                              *)
(* --------------------------------------------------------------------- *)

Lemma prefix_app n a b :
  String.prefix n a = true -> String.prefix n (a ++ b) = true.
Proof.
  revert n. induction a as [|c' a IH]; intros n H.
  - destruct n; [destruct b; reflexivity|discriminate].
  - destruct n as [|c n]; [destruct b; reflexivity|]. simpl in *.
    destruct (Ascii.ascii_dec c c'); [auto|discriminate].
Qed.

Lemma includes_app_l n a b :
  includes n a = true -> includes n (a ++ b) = true.
Proof.
  induction a as [|c a IH]; intros H.
  - destruct n; [destruct b; reflexivity|discriminate H].
  - change (includes n (String c a)) with
      (if String.prefix n (String c a) then true else includes n a) in H.
    change (includes n (String c a ++ b)) with
      (if String.prefix n (String c (a ++ b)) then true else includes n (a ++ b)).
    destruct (String.prefix n (String c a)) eqn:Hp.
    + pose proof (prefix_app _ _ b Hp) as Hp'. change (String c a ++ b) with (String c (a ++ b)) in Hp'.
      rewrite Hp'. reflexivity.
    + destruct (String.prefix n (String c (a ++ b))); auto.
Qed.

Lemma includes_app_r n a b :
  includes n b = true -> includes n (a ++ b) = true.
Proof.
  induction a as [|c a IH]; intros H; [exact H|].
  change (includes n (String c a ++ b)) with
    (if String.prefix n (String c (a ++ b)) then true else includes n (a ++ b)).
  destruct (String.prefix n (String c (a ++ b))); auto.
Qed.

Lemma to_lower_app a b : to_lower (a ++ b) = to_lower a ++ to_lower b.
Proof. induction a as [|c a IH]; simpl; [reflexivity|]. rewrite IH. reflexivity. Qed.

(** A LIMIT_REACHED error is recoverable. *)
Lemma limit_reached_recoverable msg :
  isRecoverableError (to_lower (err_toString (Error ("LIMIT_REACHED: " ++ msg)))) = true.
Proof.
  replace (to_lower (err_toString (Error ("LIMIT_REACHED: " ++ msg))))
    with ("error: limit_reached: " ++ to_lower msg) by reflexivity.
  unfold isRecoverableError. rewrite includes_app_l by reflexivity. reflexivity.
Qed.

(** C3: a guarded call whose result embeds an error whose JSON text
    contains, ignoring case, insufficient_funds, usage-limited, limit or
    quota throws LIMIT_REACHED although [fn] returned; with a retry left
    ([retryCount < MAX_RETRIES]) the primary session after safeExecute is
    no longer the one the call started on. *)
Theorem safeExecute_limit_rotates JSON_parse E r w id result s sig :
  r < MAX_RETRIES ->
  ready_primary w = Some id ->
  id <= sessionCounter w ->
  inject_obs E r id = None ->
  fn_obs E r id = FnReturn result ->
  truthy result = true ->
  truthy (js_field result "error") = true ->
  json_stringify (js_field result "error") = Some s ->
  In sig limit_signals ->
  includes sig (to_lower s) = true ->
  (exists msg, limit_error result = Some (Error ("LIMIT_REACHED: " ++ msg)))
  /\ primary w = Some id
  /\ primary (snd (safeExecute JSON_parse E r w)) <> Some id.
Proof.
  intros Hr Hrp Hc Hinj Hfn Htr Hte Hs Hin Hinc.
  assert (Hlim : exists msg, limit_error result = Some (Error ("LIMIT_REACHED: " ++ msg))).
  { unfold limit_error. rewrite Htr, Hte, Hs. simpl andb.
    simpl in Hin. destruct Hin as [<-|[<-|[<-|[<-|[]]]]]; rewrite Hinc;
      rewrite ?orb_true_r; eexists; reflexivity. }
  split; [exact Hlim|].
  split.
  { unfold ready_primary in Hrp. destruct (primary w) as [i|]; [|discriminate].
    destruct (session_ready w i); congruence. }
  destruct Hlim as [msg Hlim].
  unfold safeExecute.
  destruct (MAX_RETRIES - r) as [|n] eqn:Hn; [unfold MAX_RETRIES in *; lia|].
  cbn [safeExecute_rec]. rewrite (getSession_ready JSON_parse E w id Hrp).
  rewrite Hinj, Hfn, Hlim.
  unfold guard_catch. rewrite limit_reached_recoverable.
  replace (r <? MAX_RETRIES) with true by (symmetry; apply Nat.ltb_lt; exact Hr).
  simpl andb. cbv iota beta zeta.
  apply safeExecute_rec_retired. apply rotate_retired. simpl. exact Hc.
Qed.

(** C3 at the quota error of [quota_env] on the ready pool [w_ready]. *)
Lemma safeExecute_limit_rotates_witness :
  (exists msg, limit_error (JObj [("error", JStr "Quota exceeded")])
                = Some (Error ("LIMIT_REACHED: " ++ msg)))
  /\ primary w_ready = Some 1
  /\ primary (snd (safeExecute no_parse quota_env 0 w_ready)) <> Some 1.
Proof.
  apply (safeExecute_limit_rotates no_parse quota_env 0 w_ready 1
           (JObj [("error", JStr "Quota exceeded")]) (json_quote "Quota exceeded") "quota");
    try reflexivity; try (unfold MAX_RETRIES; lia); vm_compute; auto.
Defined.

(* --------------------------------------------------------------------- *)
(* Traces: the events a step appends                                       *)
(* --------------------------------------------------------------------- *)

Lemma invokes_app l1 l2 : invokes (l1 ++ l2) = invokes l1 + invokes l2.
Proof. unfold invokes. rewrite filter_app, length_app. reflexivity. Qed.

Lemma adds_refl m w w' : trace w' = trace w -> adds_invokes m w w'.
Proof. intros H. exists []. split; [exact H|unfold invokes; simpl; lia]. Qed.

Lemma adds_trans a b w1 w2 w3 :
  adds_invokes a w1 w2 -> adds_invokes b w2 w3 -> adds_invokes (a + b) w1 w3.
Proof.
  intros [l1 [H1 I1]] [l2 [H2 I2]]. exists (l2 ++ l1)%list.
  rewrite H2, H1, app_assoc, invokes_app. split; [reflexivity|lia].
Qed.

Lemma adds_le a b w w' : adds_invokes a w w' -> a <= b -> adds_invokes b w w'.
Proof. intros [l [H I]] Hab. exists l. split; [exact H|lia]. Qed.

Lemma adds_emit ev w : adds_invokes 1 w (emit ev w).
Proof. exists [ev]. split; [reflexivity|unfold invokes; simpl; destruct (is_invoke ev); simpl; lia]. Qed.

Lemma adds_emit0 ev w : is_invoke ev = false -> adds_invokes 0 w (emit ev w).
Proof. intros H. exists [ev]. split; [reflexivity|unfold invokes; simpl; rewrite H; simpl; lia]. Qed.

Lemma adds_update id f w : adds_invokes 0 w (update_session id f w).
Proof. apply adds_refl. reflexivity. Qed.

Lemma adds_release id w : adds_invokes 0 w (release id w).
Proof. apply adds_refl. reflexivity. Qed.

Lemma createSession_trace JSON_parse E ty w :
  trace (snd (createSession JSON_parse E ty w)) = ECreate (S (sessionCounter w)) :: trace w.
Proof.
  unfold createSession, init.
  destruct (init_loop JSON_parse maxRetries 1 (init_obs E (S (sessionCounter w)))
              (newSession (S (sessionCounter w)) ty) (saved (tok w))) as [[r s] v].
  destruct r; [destruct (token s)|]; reflexivity.
Qed.

Lemma createSession_adds JSON_parse E ty w :
  adds_invokes 0 w (snd (createSession JSON_parse E ty w)).
Proof.
  exists [ECreate (S (sessionCounter w))].
  rewrite createSession_trace. split; reflexivity.
Qed.

Lemma close_then_adds (p : option nat) w :
  adds_invokes 0 w (snd ((match p with Some id => close_session id | None => ret tt end) w)).
Proof. destruct p as [id|]; [exists [EClose id]; split; reflexivity|apply adds_refl; reflexivity]. Qed.

Lemma forceRotate_adds JSON_parse E w :
  adds_invokes 0 w (snd (forceRotate JSON_parse E w)).
Proof.
  unfold forceRotate, bind, gets.
  pose proof (close_then_adds (primary w) w) as H1.
  destruct ((match primary w with Some id => close_session id | None => ret tt end) w)
    as [[[]|e] w1]; [|exact H1].
  pose proof (createSession_adds JSON_parse E "primary" w1) as H2.
  destruct (createSession JSON_parse E "primary" w1) as [[id|e] w2];
    exact (adds_trans 0 0 _ _ _ H1 H2).
Qed.

Lemma getSession_adds JSON_parse E w :
  adds_invokes 0 w (snd (getSession JSON_parse E w)).
Proof.
  unfold getSession, bind, gets at 1.
  destruct (ready_primary w) as [id|]; [apply adds_refl; reflexivity|].
  pose proof (forceRotate_adds JSON_parse E w) as H.
  destruct (forceRotate JSON_parse E w) as [[id|e] w']; simpl in *; [|exact H].
  unfold gets. destruct (ready_primary w'); exact H.
Qed.

(** The events of rotateOnLimitError: the rotation marker, the 3000 ms
    wait, then the close of the old primary and the creation. *)
Lemma rotate_trace JSON_parse E w :
  exists l, trace (snd (rotateOnLimitError JSON_parse E w))
            = (l ++ ESleep 3000 :: ERotate :: trace w)%list /\ invokes l = 0.
Proof.
  rewrite rotate_unfold. cbv zeta.
  match goal with |- context [createSession JSON_parse E "primary" ?x] => set (w1 := x) end.
  assert (Hw1 : exists l, trace w1 = (l ++ ESleep 3000 :: ERotate :: trace w)%list /\ invokes l = 0)
    by (unfold w1; destruct (primary w) as [id|];
        [exists [EClose id]|exists []]; split; reflexivity).
  destruct Hw1 as [l [Hl Il]].
  pose proof (createSession_trace JSON_parse E "primary" w1) as Hc.
  destruct (createSession JSON_parse E "primary" w1) as [[id|e] w2]; simpl in Hc;
    exists (ECreate (S (sessionCounter w1)) :: l); simpl; rewrite ?Hc, Hl;
    (split; [reflexivity|exact Il]).
Qed.

Lemma rotate_adds JSON_parse E w :
  adds_invokes 0 w (snd (rotateOnLimitError JSON_parse E w)).
Proof.
  destruct (rotate_trace JSON_parse E w) as [l [H I]].
  exists (l ++ [ESleep 3000; ERotate])%list. rewrite H, <- app_assoc, invokes_app, I.
  split; reflexivity.
Qed.

Lemma release_opt_adds (sess : option nat) w :
  adds_invokes 0 w (match sess with Some id => release id w | None => w end).
Proof. destruct sess; apply adds_refl; reflexivity. Qed.

Lemma guard_catch_adds JSON_parse E retry r sess e m w :
  (forall k, retry = Some k -> forall w', adds_invokes m w' (snd (k w'))) ->
  adds_invokes m w (snd (guard_catch JSON_parse E retry r sess e w)).
Proof.
  intros Hk. unfold guard_catch.
  pose proof (release_opt_adds sess w) as H1.
  set (w1 := match sess with Some id => release id w | None => w end) in *.
  destruct (_ && _); [destruct retry as [k|]|]; try (eapply adds_le; [exact H1|lia]).
  eapply adds_le.
  - eapply adds_trans; [exact H1|].
    eapply adds_trans; [apply (adds_emit0 (ESleep ((r + 1) * 2000))); reflexivity|].
    eapply adds_trans; [apply rotate_adds|].
    apply (Hk k eq_refl).
  - lia.
Qed.

(** One attempt of safeExecute invokes [fn] at most once, and then
    hands over to its catch block. *)
Lemma safeExecute_rec_body_adds JSON_parse E n r w m :
  (forall sess e w',
      adds_invokes m w'
        (snd (guard_catch JSON_parse E
                (match n with S n' => Some (safeExecute_rec JSON_parse E n' (S r)) | O => None end)
                r sess e w'))) ->
  adds_invokes (S m) w (snd (safeExecute_rec JSON_parse E n r w)).
Proof.
  intros Hk.
  assert (Hbody : adds_invokes (S m) w
    (snd (match getSession JSON_parse E w with
          | (Exc e, w1) => guard_catch JSON_parse E
                (match n with S n' => Some (safeExecute_rec JSON_parse E n' (S r)) | O => None end)
                r None e w1
          | (Ok id, w1) =>
              let w2 := update_session id (fun s => add_active s 1) w1 in
              match inject_obs E r id with
              | Some e => guard_catch JSON_parse E
                  (match n with S n' => Some (safeExecute_rec JSON_parse E n' (S r)) | O => None end)
                  r (Some id) e w2
              | None =>
                  let w3 := emit (EInvoke r id) w2 in
                  match fn_obs E r id with
                  | FnThrow e => guard_catch JSON_parse E
                      (match n with S n' => Some (safeExecute_rec JSON_parse E n' (S r)) | O => None end)
                      r (Some id) e w3
                  | FnReturn result =>
                      let w4 := release id w3 in
                      match limit_error result with
                      | Some e => guard_catch JSON_parse E
                          (match n with S n' => Some (safeExecute_rec JSON_parse E n' (S r)) | O => None end)
                          r (Some id) e w4
                      | None => (Ok result, w4)
                      end
                  end
              end
          end))).
  { pose proof (getSession_adds JSON_parse E w) as Hg.
    destruct (getSession JSON_parse E w) as [[id|e] w1]; cbn [snd] in Hg; cbv zeta.
    - destruct (inject_obs E r id) as [e|].
      + eapply adds_le; [eapply adds_trans; [exact Hg|eapply adds_trans; [apply adds_update|apply Hk]]|lia].
      + destruct (fn_obs E r id) as [result|e].
        * destruct (limit_error result) as [e|].
          -- eapply adds_le;
               [eapply adds_trans; [exact Hg|eapply adds_trans; [apply adds_update|
                eapply adds_trans; [apply adds_emit|eapply adds_trans; [apply adds_release|apply Hk]]]]|lia].
          -- eapply adds_le;
               [eapply adds_trans; [exact Hg|eapply adds_trans; [apply adds_update|
                eapply adds_trans; [apply adds_emit|apply adds_release]]]|lia].
        * eapply adds_le;
            [eapply adds_trans; [exact Hg|eapply adds_trans; [apply adds_update|
             eapply adds_trans; [apply adds_emit|apply Hk]]]|lia].
    - eapply adds_le; [eapply adds_trans; [exact Hg|apply Hk]|lia]. }
  destruct n; exact Hbody.
Qed.

(** safeExecute_rec with [n] retries left invokes [fn] at most [n + 1]
    times. *)
Lemma safeExecute_rec_adds JSON_parse E n r w :
  adds_invokes (S n) w (snd (safeExecute_rec JSON_parse E n r w)).
Proof.
  revert r w. induction n as [|n IH]; intros r w; apply safeExecute_rec_body_adds;
    intros sess e w'; apply guard_catch_adds; intros k Hk w''.
  - discriminate Hk.
  - injection Hk as <-. apply IH.
Qed.

Lemma guard_catch_throws JSON_parse E retry r sess e w :
  (forall k, retry = Some k -> forall w', exists e', fst (k w') = Exc e') ->
  exists e', fst (guard_catch JSON_parse E retry r sess e w) = Exc e'.
Proof.
  intros Hk. unfold guard_catch.
  destruct (_ && _); [destruct retry as [k|]|]; try (exists e; reflexivity).
  apply (Hk k eq_refl).
Qed.

(** When [fn] always throws, safeExecute_rec ends in an exception. *)
Lemma safeExecute_rec_throws JSON_parse E n r w :
  (forall k id, exists e, fn_obs E k id = FnThrow e) ->
  exists e, fst (safeExecute_rec JSON_parse E n r w) = Exc e.
Proof.
  intros Hfn. revert r w. induction n as [|n IH]; intros r w; cbn [safeExecute_rec];
    destruct (getSession JSON_parse E w) as [[id|e] w1];
    try (apply guard_catch_throws; intros k Hk w'; (discriminate Hk || (injection Hk as <-; apply IH)));
    cbv zeta; destruct (inject_obs E r id) as [e|];
    try (apply guard_catch_throws; intros k Hk w'; (discriminate Hk || (injection Hk as <-; apply IH)));
    destruct (Hfn r id) as [e Hr]; rewrite Hr;
    apply guard_catch_throws; intros k Hk w'; (discriminate Hk || (injection Hk as <-; apply IH)).
Qed.

(** C4: a guarded call whose [fn] always throws a recoverable error
    ends by throwing to the caller, and the events it adds to the trace
    contain at most [MAX_RETRIES + 1 = 3] invocations of [fn]. *)
Theorem safeExecute_retry_bound JSON_parse E w :
  (forall k id, exists e, fn_obs E k id = FnThrow e
                /\ isRecoverableError (to_lower (err_toString e)) = true) ->
  (exists e, fst (safeExecute JSON_parse E 0 w) = Exc e)
  /\ exists l, trace (snd (safeExecute JSON_parse E 0 w)) = (l ++ trace w)%list
               /\ invokes l <= MAX_RETRIES + 1.
Proof.
  intros Hfn. split.
  - apply safeExecute_rec_throws. intros k id. destruct (Hfn k id) as [e [H _]].
    exists e. exact H.
  - destruct (safeExecute_rec_adds JSON_parse E (MAX_RETRIES - 0) 0 w) as [l [H I]].
    exists l. split; [exact H|unfold MAX_RETRIES in *; lia].
Qed.

(** C4 on a pool with a ready primary and a capability that always
    fails with a navigation error. *)
Lemma safeExecute_retry_bound_witness :
  (exists e, fst (safeExecute no_parse nav_env 0 w_ready) = Exc e)
  /\ exists l, trace (snd (safeExecute no_parse nav_env 0 w_ready)) = (l ++ trace w_ready)%list
               /\ invokes l <= MAX_RETRIES + 1.
Proof.
  apply safeExecute_retry_bound. intros k id. exists nav_error. split; reflexivity.
Defined.

(** On that input the bound is reached: [fn] runs three times. *)
Lemma safeExecute_nav_three_invocations :
  invokes (trace (snd (safeExecute no_parse nav_env 0 w_ready))) = 3
  /\ fst (safeExecute no_parse nav_env 0 w_ready) = Exc nav_error.
Proof. vm_compute. split; reflexivity. Qed.

(** C5: the catch block of safeExecute.  An error is recoverable exactly
    when its lower-cased text contains one of the limit/quota or
    transport signals.  A recoverable error with a retry left releases
    the session, waits [(retryCount + 1) * 2000] ms, runs
    rotateOnLimitError (which records its marker after that wait) and
    retries the whole call on the rotated pool.  Otherwise the error is
    thrown to the caller unchanged. *)
Theorem guard_catch_policy JSON_parse E n r sess e w :
  let errStr := to_lower (err_toString e) in
  let w1 := match sess with Some id => release id w | None => w end in
  (isRecoverableError errStr = true <->
     exists sig, In sig recoverable_signals /\ includes sig errStr = true)
  /\ (isRecoverableError errStr = true -> r < MAX_RETRIES ->
      let w2 := snd (rotateOnLimitError JSON_parse E (emit (ESleep ((r + 1) * 2000)) w1)) in
      guard_catch JSON_parse E (Some (safeExecute_rec JSON_parse E n (S r))) r sess e w
        = safeExecute_rec JSON_parse E n (S r) w2
      /\ exists l, trace w2 = (l ++ ESleep 3000 :: ERotate :: ESleep ((r + 1) * 2000) :: trace w)%list)
  /\ (isRecoverableError errStr = false \/ MAX_RETRIES <= r ->
      forall retry, guard_catch JSON_parse E retry r sess e w = (Exc e, w1)).
Proof.
  intros errStr w1. split; [|split].
  - unfold isRecoverableError. split.
    + intros H.
      repeat match goal with
             | H : (_ || _) = true |- _ => apply orb_true_iff in H; destruct H as [H|H]
             end;
        eexists; (split; [|exact H]); simpl; intuition.
    + intros [sig [Hin H]]. simpl in Hin.
      repeat (destruct Hin as [<-|Hin]; [rewrite H; rewrite ?orb_true_r; reflexivity|]).
      destruct Hin.
  - intros Hrec Hr w2. split.
    + unfold guard_catch. fold errStr. fold w1. rewrite Hrec.
      replace (r <? MAX_RETRIES) with true by (symmetry; apply Nat.ltb_lt; exact Hr).
      reflexivity.
    + destruct (rotate_trace JSON_parse E (emit (ESleep ((r + 1) * 2000)) w1)) as [l [H _]].
      exists l. unfold w2. rewrite H. unfold w1. destruct sess; reflexivity.
  - intros Hno retry. unfold guard_catch. fold errStr. fold w1.
    replace (isRecoverableError errStr && (r <? MAX_RETRIES)) with false; [reflexivity|].
    destruct Hno as [Hno|Hno]; [rewrite Hno; reflexivity|].
    replace (r <? MAX_RETRIES) with false by (symmetry; apply Nat.ltb_ge; exact Hno).
    symmetry. apply andb_false_r.
Qed.

(** C7 (amended): getSession returns the primary when it is ready.
    Otherwise it runs one forceRotate: the old primary, if any, is closed
    and one new primary session is created.  When that creation succeeds
    its session is returned and it is the ready primary, so the
    "Session unavailable after recovery attempt" error is never reached;
    when it fails, the creation's own error is thrown unchanged. *)
Theorem getSession_recovery JSON_parse E w :
  match ready_primary w with
  | Some id => getSession JSON_parse E w = (Ok id, w)
  | None =>
      let w1 := match primary w with Some id => snd (close_session id w) | None => w end in
      match createSession JSON_parse E "primary" w1 with
      | (Ok id, w2) =>
          getSession JSON_parse E w = (Ok id, set_primary_w w2 (Some id))
          /\ ready_primary (set_primary_w w2 (Some id)) = Some id
      | (Exc e, w2) => getSession JSON_parse E w = (Exc e, w2)
      end
  end.
Proof.
  destruct (ready_primary w) as [id|] eqn:Hr; [apply getSession_ready; exact Hr|].
  cbv zeta.
  set (w1 := match primary w with Some id => snd (close_session id w) | None => w end).
  assert (Hf : forceRotate JSON_parse E w =
               match createSession JSON_parse E "primary" w1 with
               | (Ok id, w2) => (Ok id, set_primary_w w2 (Some id))
               | (Exc e, w2) => (Exc e, w2)
               end).
  { unfold forceRotate, bind, gets.
    replace ((match primary w with Some id => close_session id | None => ret tt end) w)
      with (Ok tt, w1) by (unfold w1; destruct (primary w); reflexivity).
    destruct (createSession JSON_parse E "primary" w1) as [[id|e] w2]; reflexivity. }
  destruct (createSession_spec JSON_parse E "primary" w1) as (_ & _ & Hok).
  unfold getSession, bind, gets. rewrite Hr. cbv beta iota. rewrite Hf.
  destruct (createSession JSON_parse E "primary" w1) as [[id|e] w2]; [|reflexivity].
  destruct (Hok id eq_refl) as [_ Hready]. cbn [snd] in Hready.
  assert (Hrp : ready_primary (set_primary_w w2 (Some id)) = Some id).
  { unfold ready_primary. cbn [primary set_primary_w].
    unfold session_ready in *. cbn [sessions set_primary_w]. rewrite Hready. reflexivity. }
  split; [|exact Hrp]. rewrite Hrp. reflexivity.
Qed.

(* --------------------------------------------------------------------- *)
(* rotateOnLimitError under interleaving                                   *)
(* --------------------------------------------------------------------- *)

(** The first call, from a pool with no rotation in flight, starts one. *)
Lemma rot_start st :
  isRotating st = false ->
  rot_inflight st (fst (rot_step st RCall)) /\ snd (rot_step st RCall) = Some (next_promise st).
Proof.
  intros H. unfold rot_step. rewrite H.
  split; [|reflexivity].
  unfold rot_inflight; cbn. repeat split. left. split; reflexivity.
Qed.

(** While it is in flight, calls, the timer and the close of the old
    primary keep it in flight, and every call gets its promise. *)
Lemma rot_step_inflight st0 st ev :
  rot_inflight st0 st ->
  match ev with RCreated _ => false | _ => true end = true ->
  rot_inflight st0 (fst (rot_step st ev))
  /\ (ev = RCall -> snd (rot_step st ev) = Some (next_promise st0)).
Proof.
  intros (Hrot & Hprom & Hnext & Hset & Hjob) Hev.
  destruct ev as [| | |ok]; [| | |discriminate Hev].
  - unfold rot_step. rewrite Hrot. split; [|intros _; exact Hprom].
    repeat split; assumption.
  - split; [|discriminate]. unfold rot_step.
    destruct Hjob as [[Hj Hc]|[[Hj Hc]|(Hj & Hc & Hp)]]; rewrite Hj.
    + destruct (r_primary st); unfold rot_inflight; cbn;
        (split; [exact Hrot|split; [exact Hprom|split; [exact Hnext|split; [exact Hset|]]]]).
      * right. left. split; [reflexivity|exact Hc].
      * right. right. rewrite Hc. repeat split.
    + repeat split; try assumption. right. left. split; assumption.
    + repeat split; try assumption. right. right. repeat split; assumption.
  - split; [|discriminate]. unfold rot_step.
    destruct Hjob as [[Hj Hc]|[[Hj Hc]|(Hj & Hc & Hp)]]; rewrite Hj.
    + repeat split; try assumption. left. split; assumption.
    + unfold rot_inflight; cbn.
      split; [exact Hrot|split; [exact Hprom|split; [exact Hnext|split; [exact Hset|]]]].
      right. right. rewrite Hc. repeat split.
    + repeat split; try assumption. right. right. repeat split; assumption.
Qed.

Lemma rot_run_inflight st0 st evs :
  rot_inflight st0 st -> no_created evs = true ->
  rot_inflight st0 (fst (rot_run st evs))
  /\ (forall o, In o (snd (rot_run st evs)) -> o = Some (next_promise st0)).
Proof.
  revert st. induction evs as [|ev evs IH]; intros st Hin Hno.
  - split; [exact Hin|intros o []].
  - unfold no_created in Hno. simpl in Hno. apply andb_true_iff in Hno as [Hev Hno].
    destruct (rot_step_inflight st0 st ev Hin Hev) as [Hin' Hcall].
    cbn [rot_run].
    destruct (rot_step st ev) as [st' out] eqn:Hs.
    destruct (IH st' Hin' Hno) as [Hf Ho].
    destruct (rot_run st' evs) as [st'' outs].
    split; [exact Hf|].
    destruct ev; try exact Ho.
    intros o [<-|Hin2]; [apply Hcall; reflexivity|apply Ho; exact Hin2].
Qed.

(** [rot_run] answers every call. *)
Lemma rot_run_outs st evs :
  length (snd (rot_run st evs))
  = length (filter (fun ev => match ev with RCall => true | _ => false end) evs).
Proof.
  revert st. induction evs as [|ev evs IH]; intros st; [reflexivity|].
  cbn [rot_run]. destruct (rot_step st ev) as [st' out].
  specialize (IH st'). destruct (rot_run st' evs) as [st'' outs].
  destruct ev; simpl in *; rewrite ?IH; reflexivity.
Qed.

(** The first call of rotateOnLimitError from a pool with no rotation in
    flight starts one; every call made before its session creation
    settles gets the same rotation promise, and at most one session is
    created.  When that creation settles, the promise resolves with
    [undefined], the pool is no longer rotating, and the primary is the
    new session (or stays null if the creation failed). *)
Theorem rotateOnLimitError_coalesces st evs ok :
  isRotating st = false -> no_created evs = true ->
  let p := next_promise st in
  let (st1, outs) := rot_run st (RCall :: evs) in
  length outs = S (length (filter (fun ev => match ev with RCall => true | _ => false end) evs))
  /\ (forall o, In o outs -> o = Some p)
  /\ r_counter st1 <= S (r_counter st)
  /\ (job st1 = Some (p, PCreate (S (r_counter st))) ->
      let st2 := fst (rot_step st1 (RCreated ok)) in
      r_primary st2 = (if ok then Some (S (r_counter st)) else None)
      /\ r_counter st2 = S (r_counter st)
      /\ isRotating st2 = false
      /\ settled st2 = (p, JUndef) :: settled st).
Proof.
  intros Hrot Hno p. cbn [rot_run].
  destruct (rot_start st Hrot) as [Hin0 Hout0].
  destruct (rot_step st RCall) as [st0 out0]. cbn [fst snd] in Hin0, Hout0.
  destruct (rot_run_inflight st st0 evs Hin0 Hno) as [Hin Ho].
  pose proof (rot_run_outs st0 evs) as Hlen.
  destruct (rot_run st0 evs) as [st1 outs]. cbn [fst snd] in *.
  destruct Hin as (Hrot1 & Hprom & Hnext & Hset & Hjob).
  split; [simpl; rewrite Hlen; reflexivity|].
  split; [intros o [<-|H]; [exact Hout0|apply Ho; exact H]|].
  split; [destruct Hjob as [[_ Hc]|[[_ Hc]|(_ & Hc & _)]]; lia|].
  intros Hj. unfold rot_step. rewrite Hj. cbn [fst r_primary r_counter isRotating settled].
  destruct Hjob as [[Hj' _]|[[Hj' _]|(_ & Hc & Hp)]]; try congruence.
  rewrite Hp, Hc, Hset. destruct ok; repeat split.
Qed.

(** rotateOnLimitError_coalesces on three calls around the timer and the
    close. *)
Lemma rotateOnLimitError_coalesces_witness :
  let p := next_promise rot_idle in
  let (st1, outs) := rot_run rot_idle (RCall :: rot_sched) in
  length outs = S (length (filter (fun ev => match ev with RCall => true | _ => false end) rot_sched))
  /\ (forall o, In o outs -> o = Some p)
  /\ r_counter st1 <= S (r_counter rot_idle)
  /\ (job st1 = Some (p, PCreate (S (r_counter rot_idle))) ->
      let st2 := fst (rot_step st1 (RCreated true)) in
      r_primary st2 = (if true then Some (S (r_counter rot_idle)) else None)
      /\ r_counter st2 = S (r_counter rot_idle)
      /\ isRotating st2 = false
      /\ settled st2 = (p, JUndef) :: settled rot_idle).
Proof. exact (rotateOnLimitError_coalesces rot_idle rot_sched true eq_refl eq_refl). Defined.

(* --------------------------------------------------------------------- *)
(* PersistentStore                                                         *)
(* --------------------------------------------------------------------- *)

Lemma find_token_overwrite_same u tok now l t :
  find_token u l = Some t ->
  find_token u (overwrite_token u tok now l)
  = Some (mkTokenEntry (te_userId t) tok (te_createdAt t) (Some now)).
Proof.
  induction l as [|x l IH]; simpl; [discriminate|].
  destruct (String.eqb (te_userId x) u) eqn:Hx.
  - intros H. injection H as <-. simpl. rewrite Hx. reflexivity.
  - intros H. simpl. rewrite Hx. auto.
Qed.

Lemma find_token_overwrite_other u u' tok now l :
  u' <> u -> find_token u' (overwrite_token u tok now l) = find_token u' l.
Proof.
  intros Hne. induction l as [|x l IH]; simpl; [reflexivity|].
  destruct (String.eqb (te_userId x) u) eqn:Hx; simpl.
  - apply String.eqb_eq in Hx. rewrite Hx.
    destruct (String.eqb_spec u u'); [congruence|reflexivity].
  - rewrite IH. reflexivity.
Qed.

Lemma overwrite_token_ids u tok now l :
  map te_userId (overwrite_token u tok now l) = map te_userId l.
Proof.
  induction l as [|x l IH]; simpl; [reflexivity|].
  destruct (String.eqb (te_userId x) u); simpl; rewrite ?IH; reflexivity.
Qed.

Lemma find_token_app u l e :
  find_token u (l ++ [e])%list
  = match find_token u l with
    | Some t => Some t
    | None => if String.eqb (te_userId e) u then Some e else None
    end.
Proof.
  induction l as [|x l IH]; simpl; [reflexivity|].
  destruct (String.eqb (te_userId x) u); [reflexivity|exact IH].
Qed.

Lemma find_token_none u l : find_token u l = None -> ~ In u (map te_userId l).
Proof.
  induction l as [|x l IH]; simpl; [auto|].
  destruct (String.eqb (te_userId x) u) eqn:Hx; [discriminate|].
  intros H [Heq|Hin]; [apply String.eqb_neq in Hx; congruence|exact (IH H Hin)].
Qed.

Lemma find_chat_app id l c :
  find_chat id (l ++ [c])%list
  = match find_chat id l with
    | Some x => Some x
    | None => if String.eqb (c_id c) id then Some c else None
    end.
Proof.
  induction l as [|x l IH]; simpl; [reflexivity|].
  destruct (String.eqb (c_id x) id); [reflexivity|exact IH].
Qed.

Lemma find_chat_push_same id m l :
  find_chat id (push_message id m l)
  = option_map (fun c => mkChat (c_id c) (c_title c) (c_model c) (c_createdAt c)
                                (c_messages c ++ [m])%list) (find_chat id l).
Proof.
  induction l as [|x l IH]; simpl; [reflexivity|].
  destruct (String.eqb (c_id x) id) eqn:Hx; simpl; rewrite ?Hx; [reflexivity|exact IH].
Qed.

Lemma find_chat_push_other id id' m l :
  id' <> id -> find_chat id' (push_message id m l) = find_chat id' l.
Proof.
  intros Hne. induction l as [|x l IH]; simpl; [reflexivity|].
  destruct (String.eqb (c_id x) id) eqn:Hx; simpl.
  - apply String.eqb_eq in Hx. rewrite Hx.
    destruct (String.eqb_spec id id'); [congruence|reflexivity].
  - rewrite IH. reflexivity.
Qed.

Lemma push_message_length id m l : length (push_message id m l) = length l.
Proof.
  induction l as [|x l IH]; simpl; [reflexivity|].
  destruct (String.eqb (c_id x) id); simpl; rewrite ?IH; reflexivity.
Qed.

(** saveToken ignores a falsy token.  Otherwise the token becomes
    [lastToken] and the token of [userId]'s entry (overwritten in place,
    or appended when there is none), the other users' entries and the
    chats are untouched, and at most one entry per user is kept. *)
Theorem saveToken_spec token userId now d :
  (truthy token = false -> saveToken token userId now d = d)
  /\ (truthy token = true ->
      let d' := saveToken token userId now d in
      getLastToken d' = token
      /\ option_map te_token (find_token userId (tokens d')) = Some token
      /\ (forall u, u <> userId -> find_token u (tokens d') = find_token u (tokens d))
      /\ (NoDup (map te_userId (tokens d)) -> NoDup (map te_userId (tokens d')))
      /\ chats d' = chats d).
Proof.
  split.
  - intros H. unfold saveToken. rewrite H. reflexivity.
  - intros H d'. unfold d', saveToken. rewrite H. cbn [negb getLastToken tokens chats lastToken].
    destruct (find_token userId (tokens d)) as [t|] eqn:Hf.
    + rewrite (find_token_overwrite_same _ _ _ _ _ Hf).
      split; [reflexivity|split; [reflexivity|split; [|split; [|reflexivity]]]].
      * intros u Hu. apply find_token_overwrite_other. exact Hu.
      * rewrite overwrite_token_ids. auto.
    + rewrite find_token_app, Hf, String.eqb_refl.
      split; [reflexivity|split; [reflexivity|split; [|split; [|reflexivity]]]].
      * intros u Hu. rewrite find_token_app.
        destruct (find_token u (tokens d)); [reflexivity|].
        cbn [te_userId]. destruct (String.eqb_spec userId u); [congruence|reflexivity].
      * intros Hnd. rewrite map_app. simpl.
        apply NoDup_app; [exact Hnd|constructor; [auto|constructor]|].
        intros x Hx [<-|[]]. exact (find_token_none _ _ Hf Hx).
Qed.

(** createChat gives the chat the id [String(Date.now())], the title
    ['New Chat'] and the model ['gemini-2.0-flash'] when none is given,
    and no messages, and appends it to [chats].  getChat finds it by its
    id unless an earlier chat already has that id (one created in the
    same millisecond), which getChat keeps returning; other ids are not
    affected. *)
Theorem getChat_createChat title model now iso d :
  let (c, d') := createChat title model now iso d in
  c_id c = z_to_string now
  /\ c_title c = js_or title (JStr "New Chat")
  /\ c_model c = js_or model (JStr "gemini-2.0-flash")
  /\ c_messages c = []
  /\ getChat (c_id c) d' = match getChat (c_id c) d with Some old => Some old | None => Some c end
  /\ (forall id, id <> c_id c -> getChat id d' = getChat id d).
Proof.
  unfold createChat, getChat. cbn [c_id c_title c_model c_messages chats].
  split; [reflexivity|split; [reflexivity|split; [reflexivity|split; [reflexivity|split]]]].
  - rewrite find_chat_app. cbn [c_id]. rewrite String.eqb_refl. reflexivity.
  - intros id Hid. rewrite find_chat_app.
    destruct (find_chat id (chats d)); [reflexivity|]. cbn [c_id].
    destruct (String.eqb_spec (z_to_string now) id); [congruence|reflexivity].
Qed.

(** addMessage appends the message to the first chat with that id and to
    no other; with no such chat the store is unchanged.  The number of
    chats, the tokens and [lastToken] do not change. *)
Theorem addMessage_spec chatId role content now d :
  let d' := addMessage chatId role content now d in
  getChat chatId d'
  = option_map (fun c => mkChat (c_id c) (c_title c) (c_model c) (c_createdAt c)
                                (c_messages c ++ [mkMessage role content now])%list)
               (getChat chatId d)
  /\ (forall id, id <> chatId -> getChat id d' = getChat id d)
  /\ length (chats d') = length (chats d)
  /\ tokens d' = tokens d /\ lastToken d' = lastToken d
  /\ (getChat chatId d = None -> d' = d).
Proof.
  intros d'. unfold d', addMessage.
  destruct (getChat chatId d) as [c|] eqn:Hg.
  - unfold getChat in *. cbn [chats tokens lastToken].
    rewrite find_chat_push_same, Hg.
    split; [reflexivity|split; [|split; [apply push_message_length|split; [reflexivity|split; [reflexivity|discriminate]]]]].
    intros id Hid. apply find_chat_push_other. exact Hid.
  - rewrite Hg. repeat split; auto.
Qed.

(* --------------------------------------------------------------------- *)
(* Response cache                                                          *)
(* --------------------------------------------------------------------- *)

Lemma map_get_none_iff k m : map_get k m = None <-> ~ In k (map fst m).
Proof.
  induction m as [|[k' v] m IH]; simpl; [tauto|].
  destruct (String.eqb_spec k' k) as [->|Hne].
  - split; [discriminate|]. intros H. exfalso. apply H. left. reflexivity.
  - rewrite IH. split; intros H; [intros [Heq|Hin]; [congruence|exact (H Hin)]|auto].
Qed.

Lemma map_set_absent k v m : map_get k m = None -> map_set k v m = (m ++ [(k, v)])%list.
Proof.
  induction m as [|[k' v'] m IH]; simpl; [reflexivity|].
  destruct (String.eqb k' k); [discriminate|]. intros H. rewrite (IH H). reflexivity.
Qed.

Lemma map_set_present_keys k v m :
  map_get k m <> None -> map fst (map_set k v m) = map fst m.
Proof.
  induction m as [|[k' v'] m IH]; simpl; [congruence|].
  destruct (String.eqb k' k); simpl; [reflexivity|]. intros H. rewrite (IH H). reflexivity.
Qed.

Lemma map_get_set_same k v m : map_get k (map_set k v m) = Some v.
Proof.
  induction m as [|[k' v'] m IH]; simpl; [rewrite String.eqb_refl; reflexivity|].
  destruct (String.eqb k' k) eqn:Hk; simpl; rewrite Hk; [reflexivity|exact IH].
Qed.

Lemma map_get_delete_other k k' m :
  k' <> k -> map_get k' (map_delete k m) = map_get k' m.
Proof.
  intros Hne. induction m as [|[k0 v] m IH]; simpl; [reflexivity|].
  destruct (String.eqb k0 k) eqn:Hk; simpl.
  - apply String.eqb_eq in Hk. subst k0.
    destruct (String.eqb_spec k k'); [congruence|reflexivity].
  - rewrite IH. reflexivity.
Qed.

Lemma map_get_delete_same k m :
  NoDup (map fst m) -> map_get k (map_delete k m) = None.
Proof.
  induction m as [|[k0 v] m IH]; simpl; [reflexivity|].
  intros Hnd. inversion Hnd as [|? ? Hni Hnd']; subst.
  destruct (String.eqb k0 k) eqn:Hk.
  - apply String.eqb_eq in Hk. subst k0. apply map_get_none_iff. exact Hni.
  - simpl. rewrite Hk. exact (IH Hnd').
Qed.

Lemma map_delete_absent k m : map_get k m = None -> map_delete k m = m.
Proof.
  induction m as [|[k' v] m IH]; simpl; [reflexivity|].
  destruct (String.eqb k' k); [discriminate|]. intros H. rewrite (IH H). reflexivity.
Qed.

Lemma map_get_app_new k v m :
  map_get k m = None -> map_get k (m ++ [(k, v)])%list = Some v.
Proof.
  induction m as [|[k' v'] m IH]; simpl; [rewrite String.eqb_refl; reflexivity|].
  destruct (String.eqb k' k); [discriminate|exact IH].
Qed.

Lemma map_set_length k v m :
  length (map_set k v m) = if map_get k m then length m else S (length m).
Proof.
  induction m as [|[k' v'] m IH]; simpl; [reflexivity|].
  destruct (String.eqb k' k); simpl; [reflexivity|].
  rewrite IH. destruct (map_get k m); reflexivity.
Qed.

(** The cases of setCache on a well-formed cache: an existing key is
    updated in place with no eviction; a new key is appended, and when
    the cache already held 100 entries the oldest one goes. *)
Lemma setCache_cases k d now m :
  cache_wf m ->
  (map_get k m <> None /\ setCache k d now m = map_set k (mkCacheEntry d now) m)
  \/ (map_get k m = None /\ length m < 100
      /\ setCache k d now m = (m ++ [(k, mkCacheEntry d now)])%list)
  \/ (map_get k m = None /\ length m = 100
      /\ setCache k d now m = (tl m ++ [(k, mkCacheEntry d now)])%list).
Proof.
  intros [Hnd Hlen]. unfold setCache. cbv zeta.
  rewrite map_set_length.
  destruct (map_get k m) as [e|] eqn:Hg.
  - left. split; [discriminate|].
    replace (100 <? length m) with false by (symmetry; apply Nat.ltb_ge; lia). reflexivity.
  - right. rewrite (map_set_absent _ _ _ Hg).
    destruct (Nat.lt_ge_cases (length m) 100) as [Hlt|Hge].
    + left. split; [reflexivity|split; [exact Hlt|]].
      replace (100 <? S (length m)) with false by (symmetry; apply Nat.ltb_ge; lia). reflexivity.
    + right. split; [reflexivity|split; [lia|]].
      replace (100 <? S (length m)) with true by (symmetry; apply Nat.ltb_lt; lia).
      destruct m as [|[k0 v0] r]; [simpl in Hge; lia|].
      simpl. rewrite String.eqb_refl. reflexivity.
Qed.

(** setCache keeps the cache a Map of at most 100 distinct keys; on a
    full cache a new key evicts the oldest inserted entry (the first key
    in insertion order), never the one just written. *)
Theorem setCache_wf_fifo k d now m :
  cache_wf m ->
  cache_wf (setCache k d now m)
  /\ (length m = 100 -> map_get k m = None ->
      setCache k d now m = (tl m ++ [(k, mkCacheEntry d now)])%list).
Proof.
  intros Hwf. pose proof Hwf as [Hnd Hlen].
  destruct (setCache_cases k d now m Hwf) as [[Hp ->]|[[Ha [Hl ->]]|[Ha [Hl ->]]]].
  - split; [|intros _ Hn; congruence].
    split; [rewrite map_set_present_keys; assumption|].
    rewrite map_set_length. destruct (map_get k m); [lia|congruence].
  - split; [|intros; lia].
    split; [|rewrite length_app; simpl; lia].
    rewrite map_app. apply NoDup_app; [exact Hnd|constructor; [auto|constructor]|].
    intros x Hx [<-|[]]. apply map_get_none_iff in Ha. exact (Ha Hx).
  - split; [|intros; reflexivity].
    destruct m as [|[k0 v0] r]; [simpl in Hl; lia|]. simpl in Hnd, Hl |- *.
    inversion Hnd as [|? ? _ Hnd']; subst.
    split; [|rewrite length_app; simpl; lia].
    rewrite map_app. apply NoDup_app; [exact Hnd'|constructor; [auto|constructor]|].
    intros x Hx [<-|[]]. apply map_get_none_iff in Ha. simpl in Ha. apply Ha. right. exact Hx.
Qed.

(** A value stored by setCache at time [now] is returned by getFromCache
    at any time [now'] less than five minutes later, and the read does not
    reorder or otherwise change the cache. *)
Theorem cache_round_trip k d now now' m :
  cache_wf m -> (now' - now < CACHE_TTL)%Z ->
  getFromCache k now' (setCache k d now m) = (d, setCache k d now m).
Proof.
  intros Hwf Ht.
  assert (Hg : map_get k (setCache k d now m) = Some (mkCacheEntry d now)).
  { destruct (setCache_cases k d now m Hwf) as [[_ ->]|[[Ha [_ ->]]|[Ha [Hl ->]]]].
    - apply map_get_set_same.
    - apply map_get_app_new. exact Ha.
    - apply map_get_app_new. destruct m as [|[k0 v0] r]; [reflexivity|].
      simpl in Ha |- *. destruct (String.eqb k0 k); [discriminate|exact Ha]. }
  unfold getFromCache. rewrite Hg. cbn [ce_timestamp ce_data].
  replace (now' - now <? CACHE_TTL)%Z with true by (symmetry; apply Z.ltb_lt; exact Ht).
  reflexivity.
Qed.

(** getFromCache returns [null] for a missing key, leaving the cache as
    it is, and for an entry at least five minutes old, which it removes
    while keeping every other entry. *)
Theorem getFromCache_miss_stale k now m :
  NoDup (map fst m) ->
  match map_get k m with
  | Some c => (CACHE_TTL <= now - ce_timestamp c)%Z
  | None => True
  end ->
  fst (getFromCache k now m) = JNull
  /\ map_get k (snd (getFromCache k now m)) = None
  /\ (forall k', k' <> k -> map_get k' (snd (getFromCache k now m)) = map_get k' m)
  /\ (map_get k m = None -> snd (getFromCache k now m) = m).
Proof.
  intros Hnd Hst. unfold getFromCache.
  destruct (map_get k m) as [c|] eqn:Hg.
  - replace (now - ce_timestamp c <? CACHE_TTL)%Z with false
      by (symmetry; apply Z.ltb_ge; exact Hst).
    cbn [fst snd]. split; [reflexivity|split; [apply map_get_delete_same; exact Hnd|split]].
    + intros k' Hk'. apply map_get_delete_other. exact Hk'.
    + discriminate.
  - cbn [fst snd]. rewrite (map_delete_absent _ _ Hg).
    split; [reflexivity|split; [exact Hg|split; reflexivity]].
Qed.

(* --------------------------------------------------------------------- *)
(* SessionPool.updateToken                                                 *)
(* --------------------------------------------------------------------- *)

Lemma updateToken_cases t st :
  updateToken t st = st
  \/ exists s, updateToken t st = mkTokenState (Some s) (s :: saved st)
               /\ 20 <= String.length s
               /\ (forall st0, tokenCache st0 = Some s -> updateToken t st0 = st0).
Proof.
  unfold updateToken.
  destruct (negb (truthy t)) eqn:Ht; [left; reflexivity|].
  destruct (if typeof_object t then probe_token t else t) as [| | | |s| |] eqn:Hs;
    try (left; reflexivity).
  cbv beta iota.
  match goal with |- context [if ?c then st else _] => destruct c eqn:Hv end;
    [left; reflexivity|].
  destruct (match tokenCache st with Some c => String.eqb c s | None => false end);
    [left; reflexivity|].
  right. exists s. split; [reflexivity|split].
  - apply orb_false_iff in Hv as [Hv _]. apply orb_false_iff in Hv as [Hv _].
    apply orb_false_iff in Hv as [Hv _]. apply Nat.ltb_ge in Hv. exact Hv.
  - intros st0 Hc. cbv beta iota. rewrite Hc, String.eqb_refl.
    reflexivity.
Qed.

(** updateToken persists a token at most once: applying it twice with
    the same token is the same as applying it once.  Every persisted
    token has at least 20 characters, and the cached token is always the
    last one persisted. *)
Theorem updateToken_spec t st :
  updateToken t (updateToken t st) = updateToken t st
  /\ (Forall (fun s => 20 <= String.length s) (saved st) ->
      Forall (fun s => 20 <= String.length s) (saved (updateToken t st)))
  /\ (tokenCache st = hd_error (saved st) ->
      tokenCache (updateToken t st) = hd_error (saved (updateToken t st))).
Proof.
  destruct (updateToken_cases t st) as [H|[s [H [Hl Hfix]]]]; rewrite H.
  - rewrite H. split; [reflexivity|split; auto].
  - split; [apply Hfix; reflexivity|split].
    + intros Hf. cbn [saved]. constructor; assumption.
    + intros _. reflexivity.
Qed.

(* --------------------------------------------------------------------- *)
(* SessionPool: getSession, forceRotate, rotateOnLimitError, safeExecute   *)
(* --------------------------------------------------------------------- *)

Lemma find_map_session_same id f l :
  (forall s, sid (f s) = sid s) ->
  find_session id (map_session id f l) = option_map f (find_session id l).
Proof.
  intros Hf. induction l as [|s l IH]; simpl; [reflexivity|].
  destruct (sid s =? id) eqn:Hs; simpl; [rewrite Hf, Hs; reflexivity|rewrite Hs; exact IH].
Qed.

Lemma find_map_session_other id id' f l :
  (forall s, sid (f s) = sid s) -> id' <> id ->
  find_session id' (map_session id f l) = find_session id' l.
Proof.
  intros Hf Hne. induction l as [|s l IH]; simpl; [reflexivity|].
  destruct (sid s =? id) eqn:Hs; simpl.
  - rewrite Hf. apply Nat.eqb_eq in Hs. rewrite Hs.
    destruct (Nat.eqb_spec id id'); [congruence|reflexivity].
  - rewrite IH. reflexivity.
Qed.

Lemma createSession_sessions JSON_parse E ty w :
  exists s, sessions (snd (createSession JSON_parse E ty w)) = s :: sessions w
            /\ sid s = S (sessionCounter w).
Proof.
  pose proof (init_loop_sid JSON_parse maxRetries 1 (init_obs E (S (sessionCounter w)))
                (newSession (S (sessionCounter w)) ty) (saved (tok w))) as Hsid.
  unfold createSession, init.
  destruct (init_loop JSON_parse maxRetries 1 (init_obs E (S (sessionCounter w)))
              (newSession (S (sessionCounter w)) ty) (saved (tok w))) as [[r s] v].
  exists s. split; [destruct r; [destruct (token s)|]; reflexivity|exact Hsid].
Qed.

Lemma createSession_find_old JSON_parse E ty w i :
  i <= sessionCounter w ->
  find_session i (sessions (snd (createSession JSON_parse E ty w))) = find_session i (sessions w).
Proof.
  intros Hi. destruct (createSession_sessions JSON_parse E ty w) as [s [-> Hs]].
  simpl. rewrite Hs. destruct (Nat.eqb_spec (S (sessionCounter w)) i); [lia|reflexivity].
Qed.

(** getSession with a ready primary hands it out and touches nothing
    else (no rotation); whenever getSession resolves to a session, that
    session is the primary and is ready in the resulting pool. *)
Theorem getSession_hands_out_ready JSON_parse E w id :
  fst (getSession JSON_parse E w) = Ok id ->
  ready_primary (snd (getSession JSON_parse E w)) = Some id
  /\ (ready_primary w = Some id -> snd (getSession JSON_parse E w) = w).
Proof.
  intros H. split.
  - revert H. unfold getSession, bind, gets.
    destruct (ready_primary w) as [i|] eqn:Hr.
    + unfold ret. intros H. injection H as <-. exact Hr.
    + destruct (forceRotate JSON_parse E w) as [[x|e] w1]; [|discriminate].
      destruct (ready_primary w1) as [i|] eqn:Hr1; [|discriminate].
      unfold ret. intros H. injection H as <-. exact Hr1.
  - intros Hr. rewrite (getSession_ready JSON_parse E w id Hr). reflexivity.
Qed.

(** forceRotate closes the old primary first (status dead, not ready,
    browser closed) and then creates one new session.  When the creation
    fails the error propagates and [primary] still points at the closed
    session; otherwise the new, ready session becomes the primary. *)
Theorem forceRotate_closes_first JSON_parse E w old :
  primary w = Some old -> old <= sessionCounter w ->
  let (r, w') := forceRotate JSON_parse E w in
  trace w' = ECreate (S (sessionCounter w)) :: EClose old :: trace w
  /\ find_session old (sessions w') = option_map close (find_session old (sessions w))
  /\ session_ready w' old = false
  /\ sessionCounter w' = S (sessionCounter w)
  /\ match r with
     | Ok id => id = S (sessionCounter w) /\ primary w' = Some id /\ session_ready w' id = true
     | Exc _ => primary w' = Some old
     end.
Proof.
  intros Hp Hle. unfold forceRotate, bind, gets. rewrite Hp.
  unfold close_session, bind, modify. cbv beta iota.
  set (w1 := emit (EClose old) (update_session old close w)).
  pose proof (createSession_spec JSON_parse E "primary" w1) as (Hp2 & Hc2 & Hok).
  pose proof (createSession_trace JSON_parse E "primary" w1) as Ht2.
  pose proof (createSession_find_old JSON_parse E "primary" w1 old Hle) as Hf2.
  destruct (createSession JSON_parse E "primary" w1) as [r w2] eqn:Hc.
  cbn [fst snd] in Hp2, Hc2, Hok, Ht2, Hf2.
  assert (Hf1 : find_session old (sessions w1) = option_map close (find_session old (sessions w)))
    by (apply find_map_session_same; reflexivity).
  assert (Hold : find_session old (sessions w2) = option_map close (find_session old (sessions w)))
    by (rewrite Hf2; exact Hf1).
  assert (Hnr : session_ready w2 old = false)
    by (unfold session_ready; rewrite Hold; destruct (find_session old (sessions w)); reflexivity).
  destruct r as [id|e].
  - destruct (Hok id eq_refl) as [Hid Hrd].
    unfold set_primary, modify, ret. cbn [fst snd].
    split; [exact Ht2|split; [exact Hold|split; [exact Hnr|split; [exact Hc2|]]]].
    split; [exact Hid|split; [reflexivity|exact Hrd]].
  - split; [exact Ht2|split; [exact Hold|split; [exact Hnr|split; [exact Hc2|]]]].
    rewrite Hp2. exact Hp.
Qed.


Lemma add_active_cancel s : add_active (add_active s 1) (-1) = s.
Proof.
  destruct s. unfold add_active. cbn [sid stype browser_open isReady status token activeRequests].
  f_equal. lia.
Qed.

Lemma find_session_release_same id w :
  find_session id (sessions (release id w))
  = option_map (fun s => let s := add_active s (-1) in
                         if sstatus_eqb (status s) Retiring && (activeRequests s <=? 0)%Z
                         then close s else s) (find_session id (sessions w)).
Proof.
  apply find_map_session_same. intros s. cbv beta zeta.
  destruct (_ && _); reflexivity.
Qed.

Lemma find_session_release_other id i w :
  i <> id -> find_session i (sessions (release id w)) = find_session i (sessions w).
Proof.
  intros Hne. apply find_map_session_other; [|exact Hne].
  intros s. cbv beta zeta. destruct (_ && _); reflexivity.
Qed.

(** A call of safeExecute that runs [fn] on the ready primary and either
    gets a result with no embedded limit error, or an error it may not
    retry (not recoverable, or no retry left), settles with that result
    or error after exactly one invocation and no rotation: [primary], the
    session counter and the token state are unchanged, the session's
    [activeRequests] is back to its value before the call (the session is
    closed only if it was already retiring with no other request), and
    no other session changes. *)
Theorem safeExecute_settles_without_rotation JSON_parse E n r w id result :
  ready_primary w = Some id ->
  inject_obs E r id = None ->
  match fn_obs E r id with
  | FnReturn res => limit_error res = None
  | FnThrow e => isRecoverableError (to_lower (err_toString e)) && (r <? MAX_RETRIES) = false
  end ->
  result = match fn_obs E r id with FnReturn res => Ok res | FnThrow e => Exc e end ->
  let w' := snd (safeExecute_rec JSON_parse E n r w) in
  fst (safeExecute_rec JSON_parse E n r w) = result
  /\ primary w' = primary w
  /\ sessionCounter w' = sessionCounter w
  /\ tok w' = tok w
  /\ trace w' = EInvoke r id :: trace w
  /\ find_session id (sessions w')
     = option_map (fun s => if sstatus_eqb (status s) Retiring && (activeRequests s <=? 0)%Z
                            then close s else s) (find_session id (sessions w))
  /\ (forall i, i <> id -> find_session i (sessions w') = find_session i (sessions w)).
Proof.
  intros Hr Hi Hfn Hres.
  set (w3 := emit (EInvoke r id) (update_session id (fun s => add_active s 1) w)).
  assert (Hrun : safeExecute_rec JSON_parse E n r w = (result, release id w3)).
  { destruct n; cbn [safeExecute_rec]; rewrite (getSession_ready JSON_parse E w id Hr), Hi;
      subst result; fold w3; destruct (fn_obs E r id) as [res|e].
    1, 3: rewrite Hfn; reflexivity.
    all: unfold guard_catch; cbv zeta; rewrite Hfn; reflexivity. }
  intros w'. unfold w'. rewrite Hrun. cbn [fst snd].
  split; [reflexivity|split; [reflexivity|split; [reflexivity|split; [reflexivity|split; [reflexivity|split]]]]].
  - rewrite find_session_release_same. unfold w3, emit, update_session, set_sessions.
    cbn [sessions]. rewrite find_map_session_same by reflexivity.
    destruct (find_session id (sessions w)) as [s|]; [|reflexivity]. cbn [option_map].
    rewrite add_active_cancel. reflexivity.
  - intros i Hne. rewrite find_session_release_other by exact Hne.
    unfold w3, emit, update_session, set_sessions. cbn [sessions].
    apply find_map_session_other; [reflexivity|exact Hne].
Qed.

(* --------------------------------------------------------------------- *)
(* BrowserSession.init                                                     *)
(* --------------------------------------------------------------------- *)

Lemma login_token_check_length tk t : login_token_check tk = Some t -> 20 < String.length t.
Proof.
  unfold login_token_check.
  destruct (if typeof_object tk then probe_token tk else tk) as [| | | |s| |]; try discriminate.
  cbv beta iota.
  destruct (20 <? String.length s) eqn:Hl; [|discriminate].
  intros H. apply Nat.ltb_lt in Hl. destruct (_ && _); [|discriminate].
  injection H as <-. exact Hl.
Qed.

Lemma login_loop_length JSON_parse n i polls t :
  login_loop JSON_parse n i polls = LoopLoggedIn t -> 20 < String.length t.
Proof.
  revert i. induction n as [|n IH]; intros i; simpl; [discriminate|].
  destruct (polls i) as [e|page]; [discriminate|].
  cbv zeta.
  destruct (truthy _ && truthy _); [|apply IH].
  destruct (login_token_check _) as [s|] eqn:Hc; [|apply IH].
  intros H. injection H as <-. exact (login_token_check_length _ _ Hc).
Qed.

Lemma init_loop_outcome JSON_parse n a obs s sv :
  1 <= n -> a + n = S maxRetries -> isReady s = false -> token s = None ->
  let '(r, s', sv') := init_loop JSON_parse n a obs s sv in
  sid s' = sid s /\ stype s' = stype s /\ activeRequests s' = activeRequests s
  /\ match r with
     | Ok _ => isReady s' = true /\ status s' = Ready /\ browser_open s' = true
               /\ exists t, token s' = Some t /\ 20 < String.length t /\ sv' = t :: sv
     | Exc _ => isReady s' = false /\ status s' = Dead /\ browser_open s' = false
                /\ token s' = None /\ sv' = sv
     end.
Proof.
  revert a s. induction n as [|n IH]; intros a s Hn Ha Hr Ht; [lia|]. simpl.
  assert (Hfail : forall e s0, sid s0 = sid s -> stype s0 = stype s ->
                    activeRequests s0 = activeRequests s -> isReady s0 = false -> token s0 = None ->
            let '(r, s', sv') := (if a =? maxRetries
                                  then (Exc e, set_status (set_browser s0 false) Dead, sv)
                                  else init_loop JSON_parse n (S a) obs (set_browser s0 false) sv) in
            sid s' = sid s /\ stype s' = stype s /\ activeRequests s' = activeRequests s
            /\ match r with
               | Ok _ => isReady s' = true /\ status s' = Ready /\ browser_open s' = true
                         /\ exists t, token s' = Some t /\ 20 < String.length t /\ sv' = t :: sv
               | Exc _ => isReady s' = false /\ status s' = Dead /\ browser_open s' = false
                          /\ token s' = None /\ sv' = sv
               end).
  { intros e s0 H1 H2 H3 H4 H5. destruct (a =? maxRetries) eqn:Hl.
    - simpl. auto 10.
    - apply Nat.eqb_neq in Hl.
      pose proof (IH (S a) (set_browser s0 false)) as IH'.
      destruct (init_loop JSON_parse n (S a) obs (set_browser s0 false) sv) as [[r s'] sv'].
      destruct IH' as (E1 & E2 & E3 & E4); [unfold maxRetries in *; lia|lia|exact H4|exact H5|].
      simpl in E1, E2, E3. rewrite E1, E2, E3, H1, H2, H3. auto. }
  destruct (obs a) as [e|polls].
  - apply Hfail; auto.
  - unfold waitForLogin. destruct (login_loop JSON_parse 60 0 polls) as [t| |e] eqn:Hl.
    + simpl. split; [reflexivity|split; [reflexivity|split; [reflexivity|]]].
      split; [reflexivity|split; [reflexivity|split; [reflexivity|]]].
      exists t. split; [reflexivity|split; [exact (login_loop_length _ _ _ _ _ Hl)|reflexivity]].
    + apply Hfail; auto.
    + apply Hfail; auto.
Qed.

(** BrowserSession.init on a new session ends in one of two states: it
    resolves with the session ready (status ready, browser open) holding
    the token it logged in with, of more than 20 characters, which was
    handed to [saveToken]; or it rejects with the session dead, not
    ready, its browser closed, no token and nothing saved.  The session's
    id, type and request count are not touched. *)
Theorem init_outcome JSON_parse existingToken obs id ty sv :
  let '(r, s, sv') := init JSON_parse existingToken obs (newSession id ty) sv in
  sid s = id /\ stype s = ty /\ activeRequests s = 0%Z
  /\ match r with
     | Ok _ => isReady s = true /\ status s = Ready /\ browser_open s = true
               /\ exists t, token s = Some t /\ 20 < String.length t /\ sv' = t :: sv
     | Exc _ => isReady s = false /\ status s = Dead /\ browser_open s = false
                /\ token s = None /\ sv' = sv
     end.
Proof.
  unfold init.
  pose proof (init_loop_outcome JSON_parse maxRetries 1 obs (newSession id ty) sv) as H.
  destruct (init_loop JSON_parse maxRetries 1 obs (newSession id ty) sv) as [[r s] sv'].
  apply H; unfold maxRetries; reflexivity || lia.
Qed.

(* --------------------------------------------------------------------- *)
(* getPageStatus                                                           *)
(* --------------------------------------------------------------------- *)

Lemma status_obj_api api token : js_field (status_obj api token) "api" = JBool api.
Proof. reflexivity. Qed.

Lemma api_flag_true p :
  api_flag p = Some true ->
  exists v, p = Some v /\ puter_declared p = true /\ truthy (js_field v "ai") = true.
Proof.
  unfold api_flag. destruct (puter_declared p) eqn:Hd; [|discriminate].
  destruct p as [v|]; [|discriminate].
  intros H. exists v. split; [reflexivity|split; [reflexivity|]].
  unfold js_field. destruct (js_get v "ai"); simpl in H; [injection H as H; exact H|discriminate].
Qed.

Lemma storage_loop_api JSON_parse env keys st :
  storage_loop JSON_parse env keys = Some st -> js_field st "api" = JBool true ->
  api_flag (puter env) = Some true.
Proof.
  induction keys as [|k keys IH]; simpl; [discriminate|].
  destruct (storage_probe JSON_parse env k) as [st'|] eqn:Hp; [|exact IH].
  intros H. injection H as <-. revert Hp. unfold storage_probe.
  destruct (storage_throws env); [discriminate|].
  destruct (lookup_item k (localStorage env)); [|discriminate].
  destruct (_ && _ && _); [|discriminate]. cbv zeta.
  destruct (token_long _); [|discriminate].
  destruct (api_flag (puter env)) as [api|]; [|discriminate].
  intros H. injection H as <-. rewrite status_obj_api. intros H. injection H as ->. reflexivity.
Qed.

Lemma puter_paths_api p st :
  puter_paths p = inl st -> js_field st "api" = JBool (truthy (js_field p "ai")).
Proof.
  unfold puter_paths. destruct (js_get p "authToken"); [|discriminate]. cbv zeta.
  destruct (_ && token_long _).
  - intros H. injection H as <-. apply status_obj_api.
  - destruct (_ && _); [|discriminate].
    destruct (token_long _); [|discriminate].
    intros H. injection H as <-. apply status_obj_api.
Qed.

(** getPageStatus reports [api: true] only for a page that exists, whose
    evaluation did not fail, where the [puter] global is declared and
    [puter.ai] is truthy. *)
Theorem getPageStatus_api_sound JSON_parse page :
  js_field (getPageStatus JSON_parse page) "api" = JBool true ->
  exists env p, page = Some env /\ evaluate_fails env = false /\ puter env = Some p
                /\ puter_declared (Some p) = true /\ truthy (js_field p "ai") = true.
Proof.
  destruct page as [env|]; [|simpl; discriminate].
  unfold getPageStatus. destruct (evaluate_fails env) eqn:Hev; [simpl; discriminate|].
  assert (Hapi : api_flag (puter env) = Some true ->
                 exists env0 p, Some env = Some env0 /\ evaluate_fails env0 = false
                   /\ puter env0 = Some p /\ puter_declared (Some p) = true
                   /\ truthy (js_field p "ai") = true).
  { intros Ha. destruct (api_flag_true _ Ha) as [v [Hv [Hd Hai]]].
    exists env, v. rewrite Hv in Hd. auto. }
  unfold page_script.
  destruct (puter env) as [p|] eqn:Hpu.
  - destruct (puter_declared (Some p)) eqn:Hd.
    + destruct (puter_paths p) as [st|t] eqn:Hpp.
      * intros H. rewrite (puter_paths_api _ _ Hpp) in H. injection H as Hai.
        exists env, p. auto.
      * destruct (storage_loop JSON_parse env storageKeys) as [st|] eqn:Hs.
        -- intros H. apply Hapi. rewrite <- Hpu. exact (storage_loop_api _ _ _ _ Hs H).
        -- destruct (api_flag (Some p)) as [api|] eqn:Ha; [|simpl; discriminate].
           simpl. rewrite status_obj_api. intros H. injection H as ->.
           apply Hapi. reflexivity.
    + destruct (storage_loop JSON_parse env storageKeys) as [st|] eqn:Hs.
      * intros H. apply Hapi. rewrite <- Hpu. exact (storage_loop_api _ _ _ _ Hs H).
      * destruct (api_flag (Some p)) as [api|] eqn:Ha; [|simpl; discriminate].
        simpl. rewrite status_obj_api. intros H. injection H as ->.
        apply Hapi. reflexivity.
  - destruct (storage_loop JSON_parse env storageKeys) as [st|] eqn:Hs.
    + intros H. apply Hapi. rewrite <- Hpu. exact (storage_loop_api _ _ _ _ Hs H).
    + simpl. discriminate.
Qed.

(* --------------------------------------------------------------------- *)
(* Dual-session getSession (part_000)                                      *)
(* --------------------------------------------------------------------- *)

(** With no hot-swap in progress (the flag is reset before hotSwap
    returns, so this holds between calls), getSession of the dual-session
    pool only hands out a ready session, never null; when the active
    session is not ready but the standby is, the standby becomes the
    active session, the old active one is closed and one new standby
    creation is started; when it throws 'No sessions available' the pool
    is unchanged; and the rotation flag is clear again afterwards. *)
Theorem hs_getSession_spec rdy st :
  hs_rotating st = false ->
  (forall x, fst (hs_getSession rdy st) = Ok x -> exists a, x = Some a /\ rdy a = true)
  /\ hs_rotating (snd (hs_getSession rdy st)) = false
  /\ (forall e, fst (hs_getSession rdy st) = Exc e -> snd (hs_getSession rdy st) = st)
  /\ (forall b, match hs_active st with Some a => rdy a | None => false end = false ->
         hs_standby st = Some b -> rdy b = true ->
         hs_getSession rdy st
         = (Ok (Some b),
            mkHs (Some b) None false
                 (match hs_active st with Some o => o :: hs_closed st | None => hs_closed st end)
                 (S (hs_spawned st)))).
Proof.
  intros Hrot. unfold hs_getSession. cbv zeta.
  destruct (match hs_active st with Some a => rdy a | None => false end) eqn:Ha.
  - split; [|split; [exact Hrot|split; [intros e H; discriminate H|intros b Hb; discriminate Hb]]].
    intros x H. injection H as <-. destruct (hs_active st) as [a|]; [|discriminate].
    exists a. auto.
  - destruct (hs_standby st) as [b|] eqn:Hs.
    + destruct (rdy b) eqn:Hb.
      * unfold hotSwap. rewrite Hrot, Hs. cbn [fst snd hs_active hs_rotating].
        split; [intros x H; injection H as <-; exists b; auto|split; [reflexivity|split]].
        -- intros e H. discriminate H.
        -- intros b' _ H' _. injection H' as <-. reflexivity.
      * split; [intros x H; discriminate H|split; [exact Hrot|split; [reflexivity|]]].
        intros b' _ H' Hb'. injection H' as <-. congruence.
    + split; [intros x H; discriminate H|split; [exact Hrot|split; [reflexivity|]]].
      intros b' _ H'. discriminate H'.
Qed.


(* --------------------------------------------------------------------- *)
(* POST /api/chat                                                          *)
(* --------------------------------------------------------------------- *)










(* --------------------------------------------------------------------- *)
(* Witnesses                                                               *)
(* --------------------------------------------------------------------- *)

Lemma one_cache_wf : cache_wf one_cache.
Proof. split; [constructor; [intros []|constructor]|simpl; lia]. Qed.

(** setCache_wf_fifo at a one-entry cache and a new key. *)
Lemma setCache_wf_fifo_witness :
  cache_wf one_cache /\ cache_wf (setCache "chat:bye" (JStr "x") 1000 one_cache).
Proof.
  split; [exact one_cache_wf|].
  exact (proj1 (setCache_wf_fifo "chat:bye" (JStr "x") 1000 one_cache one_cache_wf)).
Defined.

(** cache_round_trip one minute after the write. *)
Lemma cache_round_trip_witness :
  cache_wf one_cache /\ (61000 - 1000 < CACHE_TTL)%Z
  /\ getFromCache "chat:bye" 61000 (setCache "chat:bye" (JStr "x") 1000 one_cache)
     = (JStr "x", setCache "chat:bye" (JStr "x") 1000 one_cache).
Proof.
  split; [exact one_cache_wf|split; [unfold CACHE_TTL; lia|]].
  apply cache_round_trip; [exact one_cache_wf|unfold CACHE_TTL; lia].
Defined.

(** getFromCache_miss_stale on the entry of [one_cache] six minutes
    after it was written. *)
Lemma getFromCache_miss_stale_witness :
  NoDup (map fst one_cache) /\ (CACHE_TTL <= 360000 - 0)%Z
  /\ fst (getFromCache "chat:hi" 360000 one_cache) = JNull
  /\ map_get "chat:hi" (snd (getFromCache "chat:hi" 360000 one_cache)) = None.
Proof.
  split; [exact (proj1 one_cache_wf)|split; [unfold CACHE_TTL; lia|]].
  destruct (getFromCache_miss_stale "chat:hi" 360000 one_cache (proj1 one_cache_wf))
    as (H1 & H2 & _); [simpl; unfold CACHE_TTL; lia|].
  split; [exact H1|exact H2].
Defined.

(** getSession_hands_out_ready on a pool whose primary #1 is ready. *)
Lemma getSession_hands_out_ready_witness :
  fst (getSession no_parse quota_env w_ready) = Ok 1
  /\ ready_primary (snd (getSession no_parse quota_env w_ready)) = Some 1.
Proof.
  split; [vm_compute; reflexivity|].
  apply (getSession_hands_out_ready no_parse quota_env w_ready 1). vm_compute. reflexivity.
Defined.

(** forceRotate_closes_first on that pool. *)
Lemma forceRotate_closes_first_witness :
  primary w_ready = Some 1 /\ 1 <= sessionCounter w_ready
  /\ session_ready (snd (forceRotate no_parse quota_env w_ready)) 1 = false.
Proof.
  split; [reflexivity|split; [simpl; lia|]].
  pose proof (forceRotate_closes_first no_parse quota_env w_ready 1 eq_refl (le_n 1)) as H.
  destruct (forceRotate no_parse quota_env w_ready) as [r w']. simpl.
  destruct H as (_ & _ & H & _). exact H.
Defined.


(** safeExecute_settles_without_rotation on that pool, with a capability
    that returns the string 'ok'. *)
Lemma safeExecute_settles_without_rotation_witness :
  ready_primary w_ready = Some 1 /\ inject_obs timeout_env 0 1 = None
  /\ limit_error (JStr "ok") = None
  /\ fst (safeExecute_rec no_parse timeout_env 2 0 w_ready) = Ok (JStr "ok")
  /\ trace (snd (safeExecute_rec no_parse timeout_env 2 0 w_ready)) = [EInvoke 0 1].
Proof.
  split; [vm_compute; reflexivity|split; [reflexivity|split; [reflexivity|]]].
  destruct (safeExecute_settles_without_rotation no_parse timeout_env 2 0 w_ready 1 (Ok (JStr "ok")))
    as (H1 & _ & _ & _ & H5 & _); [vm_compute; reflexivity|reflexivity|reflexivity|reflexivity|].
  split; [exact H1|exact H5].
Defined.

(** getPageStatus_api_sound on the logged-in page. *)
Lemma getPageStatus_api_sound_witness :
  js_field (getPageStatus no_parse (Some good_page)) "api" = JBool true
  /\ exists env p, Some good_page = Some env /\ evaluate_fails env = false /\ puter env = Some p
                   /\ puter_declared (Some p) = true /\ truthy (js_field p "ai") = true.
Proof.
  split; [vm_compute; reflexivity|].
  apply (getPageStatus_api_sound no_parse). vm_compute. reflexivity.
Defined.

(** hs_getSession_spec on a pool whose active session is down. *)
Lemma hs_getSession_spec_witness :
  hs_rotating hs_down_active = false
  /\ hs_getSession only2_ready hs_down_active = (Ok (Some 2), mkHs (Some 2) None false [1] 1).
Proof.
  split; [reflexivity|].
  destruct (hs_getSession_spec only2_ready hs_down_active eq_refl) as (_ & _ & _ & H).
  apply (H 2); reflexivity.
Defined.



